(** * visuaLIME: segment selection and opacity shaping

    A shallow embedding of [src/visualime/visualize.py] and the properties
    of [select_segments] and [scale_opacity].

    Modelling conventions.
    - Python [int] is [Z]; array positions and segment labels, which are
      never negative, are [nat].
    - Python [float] is modelled by exact rationals [Q]: the rounding of
      [count / area] is left out, and the proofs use of that quotient only
      that it grows with the count and lies between 0 and 1, which rounding
      preserves.  The one place where the control flow of [select_segments]
      meets a non-finite float, the quotient [0 / 0] of an image without
      pixels, is modelled explicitly ([covered_fraction] returns [None] for
      NaN).  The opacities of [scale_opacity] are exact quotients as well;
      the note in front of [rescale] says what that leaves out.
    - A raised exception is the left injection of [result].
    - An array that the program writes to is an object of a [store], named
      by a reference; the label mask and the weights, which are only read,
      are values.
    - [np.argsort] and [np.linalg.norm] are library functions: the code is
      parametric in them, and executable instances are given below. *)

From Stdlib Require Import String.
From Stdlib Require Import QArith Qabs ZArith List Lia Bool Arith.
From Stdlib Require Import Permutation Sorted.
Import ListNotations.

Close Scope Q_scope.
Open Scope nat_scope.

(** ** Exceptions *)

(** One constructor per [raise] site of the module, plus the exceptions that
    NumPy raises on the paths the module can reach. *)
Inductive error : Set :=
| EitherRequired     (* ValueError: Either coverage or num_of_segments has to be specified *)
| OnlyEither         (* ValueError: Only either coverage or num_of_segments can be given *)
| CoverageBounds     (* ValueError: min_coverage has to be strictly smaller than max_coverage *)
| SegmentBounds      (* ValueError: min_num_of_segments has to be strictly larger than ... *)
| InvalidRelativeTo  (* ValueError: Invalid value '...' for 'relative_to'. *)
| ZeroSizeReduction  (* NumPy ValueError: zero-size array to reduction operation maximum *)
| IndexOutOfBounds   (* NumPy IndexError: index is out of bounds *)
| ShapeMismatch      (* NumPy IndexError: boolean index did not match indexed array *)
| UnboundReference.  (* a reference to no object: not reachable from Python *)

Definition result (A : Type) : Type := (error + A)%type.

(** The four [raise ValueError] statements of [select_segments]. *)
Definition is_config_error (e : error) : bool :=
  match e with
  | EitherRequired | OnlyEither | CoverageBounds | SegmentBounds => true
  | _ => false
  end.

(** ** Arrays *)

(** A two-dimensional label array: its shape and its elements in row-major
    order. *)
Record mask : Set := Mask { shape0 : nat; shape1 : nat; labels : list nat }.

(** What holds of every [ndarray]: the buffer has [shape0 * shape1] cells. *)
Definition wf_mask (m : mask) : Prop :=
  length (labels m) = shape0 m * shape1 m.

(** [segment_mask.shape[0] * segment_mask.shape[1]] *)
Definition area (m : mask) : nat := shape0 m * shape1 m.

(** One cell of [np.isin(segment_mask, sel)]. *)
Definition isin (sel : list nat) (l : nat) : bool := existsb (Nat.eqb l) sel.

(** [np.isin(segment_mask, sel).sum()] *)
Definition isin_sum (m : mask) (sel : list nat) : nat :=
  length (filter (isin sel) (labels m)).

(** [np.max(segment_mask)]; NumPy raises on an array without elements. *)
Definition np_max (m : mask) : result nat :=
  match labels m with
  | [] => inl ZeroSizeReduction
  | x :: xs => inr (fold_left Nat.max xs x)
  end.

(** [a[:k]] for a Python integer [k]: a negative [k] counts from the end. *)
Definition slice_to {A : Type} (k : Z) (l : list A) : list A :=
  if (k <? 0)%Z then firstn (length l - Z.to_nat (- k)) l
  else firstn (Z.to_nat k) l.

(** [a[i] = x] in place, for a position [i] of [a]. *)
Fixpoint update {A : Type} (l : list A) (i : nat) (x : A) : list A :=
  match l, i with
  | [], _ => []
  | _ :: l', O => x :: l'
  | y :: l', S i' => y :: update l' i' x
  end.

(** ** Floats *)

Definition Qltb (a b : Q) : bool := negb (Qle_bool b a).

(** Python's [min(a, b)] and [max(a, b)] keep the first argument on a tie. *)
Definition fmin (a b : Q) : Q := if Qltb b a then b else a.
Definition fmax (a b : Q) : Q := if Qltb a b then b else a.

(** [np.isin(segment_mask, sel).sum() / _area]: [None] is the NaN that the
    quotient of an image without pixels yields. *)
Definition covered_fraction (m : mask) (sel : list nat) : option Q :=
  if area m =? 0 then None
  else Some (Qmake (Z.of_nat (isin_sum m sel)) (Pos.of_nat (area m))).

(** Comparisons of a possibly-NaN float with a finite one: every comparison
    with NaN is false. *)
Definition fge (x : option Q) (c : Q) : bool :=
  match x with Some q => Qle_bool c q | None => false end.
Definition fgt (x : option Q) (c : Q) : bool :=
  match x with Some q => Qltb c q | None => false end.
Definition flt (x : option Q) (c : Q) : bool :=
  match x with Some q => Qltb q c | None => false end.

(** ** The arguments of [select_segments] *)

Record args : Set := Args {
  coverage : option Q;
  num_of_segments : option Z;
  min_coverage : Q;
  max_coverage : Q;
  min_num_of_segments : Z;
  max_num_of_segments : option Z
}.

(** [select_segments(segment_weights=..., segment_mask=..., coverage=c)], the
    other keywords at their defaults. *)
Definition by_coverage (c : Q) : args :=
  {| coverage := Some c; num_of_segments := None;
     min_coverage := 0%Q; max_coverage := 1%Q;
     min_num_of_segments := 0; max_num_of_segments := None |}.

(** [select_segments(..., num_of_segments=k)], likewise. *)
Definition by_count (k : Z) : args :=
  {| coverage := None; num_of_segments := Some k;
     min_coverage := 0%Q; max_coverage := 1%Q;
     min_num_of_segments := 0; max_num_of_segments := None |}.

(** [max_num_of_segments or int(np.max(segment_mask) + 1)]: Python's [or]
    takes the right operand when the left one is [None] or [0]. *)
Definition effective_max (m : mask) (a : args) : result Z :=
  let derived :=
    match np_max m with
    | inl e => inl e
    | inr x => inr (Z.of_nat x + 1)%Z
    end in
  match max_num_of_segments a with
  | Some n => if (n =? 0)%Z then derived else inr n
  | None => derived
  end.

(** The four checks of lines 68-80, in order; [None] when all pass. *)
Definition check_config (a : args) (maxn : Z) : option error :=
  match coverage a, num_of_segments a with
  | None, None => Some EitherRequired
  | Some _, Some _ => Some OnlyEither
  | _, _ =>
    if Qle_bool (max_coverage a) (min_coverage a) then Some CoverageBounds
    else if (maxn <=? min_num_of_segments a)%Z then Some SegmentBounds
    else None
  end.

Section Selector.

(** [np.argsort]: the indices that sort an array of keys. *)
Variable argsort : list Q -> list nat.

(** [ordered_segments = np.argsort(-segment_weights)] *)
Definition ordered_segments (w : list Q) : list nat :=
  argsort (map Qopp w).

(** The test of line 92 on the prefix [ordered_segments[:i]]. *)
Definition reaches (w : list Q) (m : mask) (c : Q) (i : nat) : bool :=
  fge (covered_fraction m (firstn i (ordered_segments w))) c.

(** The [for ... else] of lines 90-96: the first [i] in
    [range(max_num_of_segments + 1)] whose prefix reaches [c] gives [i - 2],
    and a scan that never breaks gives [max_num_of_segments]. *)
Definition scan_coverage (w : list Q) (m : mask) (c : Q) (maxn : Z) : Z :=
  match find (reaches w m c) (seq 0 (Z.to_nat (maxn + 1))) with
  | Some i => (Z.of_nat i - 2)%Z
  | None => maxn
  end.

(** Lines 87-88. *)
Definition clamp_coverage (c minc maxc : Q) : Q := fmax (fmin c maxc) minc.

(** The value of [num_of_segments] on entry to line 98. *)
Definition requested_count (w : list Q) (m : mask) (a : args) (maxn : Z) : Z :=
  match coverage a with
  | Some c =>
    scan_coverage w m (clamp_coverage c (min_coverage a) (max_coverage a)) maxn
  | None =>
    match num_of_segments a with
    | Some k => k
    | None => 0%Z (* excluded by [check_config] *)
    end
  end.

(** Lines 99-100. *)
Definition clamp_count (k minn maxn : Z) : Z := Z.max (Z.min k maxn) minn.

(** Line 102: [ordered_segments[: num_of_segments + 1]]. *)
Definition candidate (w : list Q) (k : Z) : list nat :=
  slice_to (k + 1) (ordered_segments w).

(** [select_segments].  The function calls itself, so the embedding takes the
    number of nested invocations it may use and returns [None] when they do
    not suffice. *)
Fixpoint select_segments (fuel : nat) (w : list Q) (m : mask) (a : args)
  : option (result (list nat)) :=
  match fuel with
  | O => None
  | S fuel' =>
    match effective_max m a with
    | inl e => Some (inl e)
    | inr maxn =>
      match check_config a maxn with
      | Some e => Some (inl e)
      | None =>
        let k := clamp_count (requested_count w m a maxn)
                             (min_num_of_segments a) maxn in
        let sel := candidate w k in
        if fgt (covered_fraction m sel) (max_coverage a) then
          select_segments fuel' w m (by_coverage (max_coverage a))
        else if flt (covered_fraction m sel) (min_coverage a) then
          select_segments fuel' w m (by_coverage (min_coverage a))
        else Some (inr sel)
      end
    end
  end.

End Selector.

(** ** Sorting: the contract of [np.argsort] and its instances

    [np.argsort(a)] returns a permutation of the indices of [a] along which
    the keys do not decrease.  The call in [select_segments] passes no [kind],
    so it runs NumPy's default sort, which NumPy documents as not stable:
    only [kind="stable"] fixes the relative order of equal keys.  Which
    algorithm the default runs depends on the NumPy build and on the
    processor, so the development fixes none of them: the code is verified
    against the contract, and the two sorts below are instances of it. *)

Definition key_at (keys : list Q) (i : nat) : Q := nth i keys 0%Q.

Definition sorts_keys (keys : list Q) (p : list nat) : Prop :=
  Permutation p (seq 0 (length keys)) /\
  Sorted (fun a b => (key_at keys a <= key_at keys b)%Q) p.

Definition argsort_contract (argsort : list Q -> list nat) : Prop :=
  forall keys, sorts_keys keys (argsort keys).

(** Insertion sort of a list of indices, [before x y] deciding whether the
    new index [x] goes in front of [y]. *)
Fixpoint insert_by (before : nat -> nat -> bool) (x : nat) (l : list nat) : list nat :=
  match l with
  | [] => [x]
  | y :: l' => if before x y then x :: l else y :: insert_by before x l'
  end.

Definition isort (before : nat -> nat -> bool) (l : list nat) : list nat :=
  fold_right (insert_by before) [] l.

(** A stable argsort ([kind="stable"]): an index goes in front of the first
    later index whose key is not smaller. *)
Definition argsort_stable (keys : list Q) : list nat :=
  isort (fun a b => Qle_bool (key_at keys a) (key_at keys b)) (seq 0 (length keys)).

(** A sort that meets the contract and is not stable: an index goes in front
    of the first later index whose key is strictly larger, so equal keys come
    out with the later index first.  It is one of the orders the contract
    leaves open, not the algorithm NumPy runs (which leaves two equal keys
    [1.0, 1.0] in place); it is used at the weights [0, 0, 2, 2] only, where
    it returns the order [3, 2, 1, 0] that NumPy's default sort returns. *)
Definition argsort_unstable (keys : list Q) : list nat :=
  isort (fun a b => Qltb (key_at keys a) (key_at keys b)) (seq 0 (length keys)).

(** A sort is stable when indices of equal keys keep their order. *)
Definition argsort_is_stable (argsort : list Q -> list nat) : Prop :=
  forall keys i j a b, i < j ->
    nth_error (argsort keys) i = Some a -> nth_error (argsort keys) j = Some b ->
    (key_at keys a == key_at keys b)%Q -> a < b.

(** Keys first, then indices: the order a stable argsort sorts by. *)
Definition key_then_index (keys : list Q) (a b : nat) : Prop :=
  (key_at keys a < key_at keys b)%Q \/
  ((key_at keys a == key_at keys b)%Q /\ a < b).

(** [before] decides the order [R] on a pair, in one direction or the other. *)
Definition decides (R : nat -> nat -> Prop) (before : nat -> nat -> bool)
  (x y : nat) : Prop :=
  if before x y then R x y else R y x.

(** ** Properties of a rank order *)

Definition weight_at (w : list Q) (i : nat) : Q := nth i w 0%Q.

(** Ids are listed by descending weight. *)
Definition descending (w : list Q) (p : list nat) : Prop :=
  forall i j a b, i < j -> nth_error p i = Some a -> nth_error p j = Some b ->
    (weight_at w b <= weight_at w a)%Q.

(** Two ids with equal weight appear in ascending id order. *)
Definition ties_ascending (w : list Q) (p : list nat) : Prop :=
  forall i j a b, i < j -> nth_error p i = Some a -> nth_error p j = Some b ->
    (weight_at w a == weight_at w b)%Q -> a < b.

(** Segment ids are contiguous: every id below the number of weights labels
    at least one cell of the mask, and every label is such an id. *)
Definition contiguous_ids (w : list Q) (m : mask) : Prop :=
  (forall l, In l (labels m) -> l < length w) /\
  (forall i, i < length w -> In i (labels m)).

(** ** Overlays, and the store they live in *)

(** One cell of an overlay: the channels 0 to 2 are the colour, channel 3
    is alpha. *)
Record pixel : Set := Pixel { ch0 : Z; ch1 : Z; ch2 : Z; ch3 : Z }.

(** An array of shape [(oshape0, oshape1, 4)], its cells in row-major order. *)
Record overlay : Set := Overlay { oshape0 : nat; oshape1 : nat; pixels : list pixel }.

(** Arrays are objects: the store holds them, and a reference is a position
    in the store.  Two names alias when they hold the same reference. *)
Definition store : Set := list overlay.

(** [np.ndarray.copy(a)]: a new object with the contents of [a]. *)
Definition np_copy (s : store) (r : nat) : result (store * nat) :=
  match nth_error s r with
  | Some o => inr (s ++ [o], length s)
  | None => inl UnboundReference
  end.

Definition with_alpha (p : pixel) (v : Z) : pixel :=
  {| ch0 := ch0 p; ch1 := ch1 p; ch2 := ch2 p; ch3 := v |}.

(** The cells of [a[bm, 3] = v]. *)
Fixpoint masked_set_alpha (bm : list bool) (ps : list pixel) (v : Z) : list pixel :=
  match bm, ps with
  | b :: bm', p :: ps' =>
    (if b then with_alpha p v else p) :: masked_set_alpha bm' ps' v
  | _, _ => ps
  end.

(** [a[bm, 3] = v] on the object at [r], in place; NumPy refuses a boolean
    index whose shape is not that of the two leading axes. *)
Definition setitem_alpha (s : store) (r : nat) (sh0 sh1 : nat) (bm : list bool)
  (v : Z) : result store :=
  match nth_error s r with
  | None => inl UnboundReference
  | Some o =>
    if (oshape0 o =? sh0) && (oshape1 o =? sh1) then
      inr (update s r {| oshape0 := oshape0 o; oshape1 := oshape1 o;
                         pixels := masked_set_alpha bm (pixels o) v |})
    else inl ShapeMismatch
  end.

(** [a[i]] for a Python integer [i]: a negative [i] counts from the end. *)
Definition py_index {A : Type} (l : list A) (i : Z) : result A :=
  let n := Z.of_nat (length l) in
  let j := if (i <? 0)%Z then (n + i)%Z else i in
  if (j <? 0)%Z then inl IndexOutOfBounds
  else match nth_error l (Z.to_nat j) with
       | Some x => inr x
       | None => inl IndexOutOfBounds
       end.

(** Storing a finite float into an integer array, like Python's [int],
    truncates toward zero.  What NumPy stores for [inf], NaN or a float
    beyond the range of the array's type is not modelled. *)
Definition float_to_int (q : Q) : Z := Z.quot (Qnum q) (Z.pos (Qden q)).

(** [np.max] of a float array. *)
Definition np_amax (l : list Q) : result Q :=
  match l with
  | [] => inl ZeroSizeReduction
  | x :: xs => inr (fold_left fmax xs x)
  end.

(** The values [relative_to] may hold. *)
Inductive pyvalue : Set :=
| PyStr (s : string)
| PyFloat (q : Q)
| PyInt (z : Z)
| PyNone.

(** [relative_to == "max"] *)
Definition is_max (v : pyvalue) : bool :=
  match v with PyStr s => String.eqb s "max" | _ => false end.

(** [isinstance(relative_to, float)] *)
Definition is_float (v : pyvalue) : bool :=
  match v with PyFloat _ => true | _ => false end.

(** A number: a float or an int. *)
Definition is_number (v : pyvalue) : bool :=
  match v with PyFloat _ | PyInt _ => true | _ => false end.

(** Lines 193-198. *)
Definition reference_of (rescaled_weights : list Q) (relative_to : pyvalue)
  : result Q :=
  if is_max relative_to then np_amax rescaled_weights
  else match relative_to with
       | PyFloat r => inr (fmax 0%Q (fmin r 1%Q))
       | _ => inl InvalidRelativeTo
       end.

(** [segment_mask == segment_id] *)
Definition label_is (m : mask) (segment_id : Z) : list bool :=
  map (fun l => (Z.of_nat l =? segment_id)%Z) (labels m).

(** The loop of lines 205-207 over the object at [new_overlay]. *)
Fixpoint color_loop (s : store) (new_overlay : nat) (segment_mask : mask)
  (new_opacity : list Q) (segments_to_color : list Z) : result store :=
  match segments_to_color with
  | [] => inr s
  | segment_id :: rest =>
    let bm := label_is segment_mask segment_id in
    match py_index new_opacity segment_id with
    | inl e => inl e
    | inr v =>
      match setitem_alpha s new_overlay (shape0 segment_mask) (shape1 segment_mask)
                          bm (float_to_int v) with
      | inl e => inl e
      | inr s' => color_loop s' new_overlay segment_mask new_opacity rest
      end
    end
  end.

(** The alpha that the loop leaves in a cell labelled [l], given the alpha
    [old] it found there: the opacity of [l] when [l] is one of
    [segments_to_color], and [old] otherwise. *)
Definition alpha_after (new_opacity : list Q) (segments_to_color : list Z)
  (l : option nat) (old new : Z) : Prop :=
  match l with
  | Some l =>
    if existsb (Z.eqb (Z.of_nat l)) segments_to_color then
      exists v, py_index new_opacity (Z.of_nat l) = inr v /\ new = float_to_int v
    else new = old
  | None => new = old
  end.

(** The floats of lines 191 and 201 are exact rationals here: the rounding of
    the two divisions is left out, and a division by zero, which NumPy turns
    into [inf] or NaN with a warning, is the 0 of [Q].  No branch of
    [scale_opacity] looks at these quotients, so the exceptions, the objects
    of the store and the cells that are written do not depend on them.  The
    number that the model computes for an alpha is the code's only up to
    that rounding, and only where the norm and the reference are finite and
    not zero. *)

Section Shaper.

(** [np.linalg.norm] *)
Variable norm : list Q -> Q.

(** Line 191. *)
Definition rescale (segment_weights : list Q) : list Q :=
  map (fun x => Qabs (x / norm segment_weights)) segment_weights.

(** Line 201. *)
Definition opacity (rescaled_weights : list Q) (reference : Q) : list Q :=
  map (fun x => (255 * x / reference)%Q) rescaled_weights.

(** [scale_opacity]: the store after the call, and the exception raised or
    the reference returned. *)
Definition scale_opacity (s : store) (overlay : nat) (segment_weights : list Q)
  (segment_mask : mask) (segments_to_color : list Z) (relative_to : pyvalue)
  : store * result nat :=
  let rescaled_weights := rescale segment_weights in
  match reference_of rescaled_weights relative_to with
  | inl e => (s, inl e)
  | inr reference =>
    let new_opacity := opacity rescaled_weights reference in
    match np_copy s overlay with
    | inl e => (s, inl e)
    | inr (s1, new_overlay) =>
      match color_loop s1 new_overlay segment_mask new_opacity segments_to_color with
      | inl e => (s1, inl e)
      | inr s2 => (s2, inr new_overlay)
      end
    end
  end.

End Shaper.

(** An executable [np.linalg.norm]: the square root of the sum of squares,
    rounded down to 53 binary digits after the point. *)
Definition l2_norm (ws : list Q) : Q :=
  let s := fold_left (fun acc x => (acc + x * x)%Q) ws 0%Q in
  let scale := (2 ^ 53)%Z in
  Qred (Qmake (Z.sqrt (Qnum s * Z.pos (Qden s) * scale * scale))
              (Qden s * Z.to_pos scale)).

(** ** Colours and rendering *)

(** The exceptions of [_get_color] and [generate_overlay]. *)
Inductive color_error : Set :=
| UnknownColor (name : string) (available : list string)
    (* ValueError: Unknown color '...'. Available colors: [...] *)
| BroadcastError.
    (* NumPy ValueError: operands could not be broadcast together *)

(** [COLORS]: the keys in the order of the dictionary. *)
Definition COLORS : list (string * list Z) :=
  [ ("green"%string, [0; 255; 0]%Z);
    ("blue"%string, [38; 55; 173]%Z);
    ("red"%string, [173; 38; 38]%Z);
    ("white"%string, [255; 255; 255]%Z);
    ("black"%string, [0; 0; 0]%Z);
    ("violet"%string, [215; 102; 255]%Z) ].

(** [d[k]] of a dictionary with string keys; [None] is the [KeyError]. *)
Fixpoint dict_get {A : Type} (d : list (string * A)) (k : string) : option A :=
  match d with
  | [] => None
  | (k', v) :: d' => if String.eqb k k' then Some v else dict_get d' k
  end.

(** The argument [color]: a name, or a tuple of channel values. *)
Inductive color : Set :=
| Named (name : string)
| Rgb (channels : list Z).

(** [_get_color]: the colour with the alpha [int(255 * opacity)] appended. *)
Definition _get_color (c : color) (opacity : Q) : color_error + list Z :=
  let rgb_color :=
    match c with
    | Named name =>
      match dict_get COLORS name with
      | Some rgb => inr rgb
      | None => inl (UnknownColor name (map fst COLORS))
      end
    | Rgb channels => inr channels
    end in
  match rgb_color with
  | inl e => inl e
  | inr rgb => inr (rgb ++ [float_to_int (255 * opacity)])
  end.

(** [np.isin(segment_mask, segments_to_color)] for a list of Python
    integers. *)
Definition isin_cells (m : mask) (segments_to_color : list Z) : list bool :=
  map (fun l => existsb (Z.eqb (Z.of_nat l)) segments_to_color) (labels m).

(** A cell of a boolean array times an integer. *)
Definition bmul (b : bool) (c : Z) : Z := if b then c else 0%Z.

(** [generate_overlay].  The product [channel_mask * colour] broadcasts a
    colour of four values, or of one value, over the cells, and NumPy refuses
    every other length. *)
Definition generate_overlay (segment_mask : mask) (segments_to_color : list Z)
  (c : color) (opacity : Q) : color_error + overlay :=
  let mask := isin_cells segment_mask segments_to_color in
  match _get_color c opacity with
  | inl e => inl e
  | inr [c0; c1; c2; c3] =>
    inr {| oshape0 := shape0 segment_mask; oshape1 := shape1 segment_mask;
           pixels := map (fun b => {| ch0 := bmul b c0; ch1 := bmul b c1;
                                      ch2 := bmul b c2; ch3 := bmul b c3 |}) mask |}
  | inr [c0] =>
    inr {| oshape0 := shape0 segment_mask; oshape1 := shape1 segment_mask;
           pixels := map (fun b => {| ch0 := bmul b c0; ch1 := bmul b c0;
                                      ch2 := bmul b c0; ch3 := bmul b c0 |}) mask |}
  | inr _ => inl BroadcastError
  end.

(** The cell that is fully transparent. *)
Definition transparent : pixel := {| ch0 := 0; ch1 := 0; ch2 := 0; ch3 := 0 |}.

(** Every channel of the cell is a value of eight bits. *)
Definition eight_bit (p : pixel) : Prop :=
  (0 <= ch0 p <= 255)%Z /\ (0 <= ch1 p <= 255)%Z /\
  (0 <= ch2 p <= 255)%Z /\ (0 <= ch3 p <= 255)%Z.

(** The id is a position of an array of [n] cells, counted from either end. *)
Definition indexes (n : nat) (i : Z) : Prop :=
  (- Z.of_nat n <= i < Z.of_nat n)%Z.

(** ** Example inputs *)

(** One row, two cells, labels 0 and 1. *)
Definition two_cells : mask := {| shape0 := 1; shape1 := 2; labels := [0; 1] |}.

(** One row, three cells, labels 0, 1 and 2. *)
Definition three_cells : mask := {| shape0 := 1; shape1 := 3; labels := [0; 1; 2] |}.

(** [num_of_segments=k, max_coverage=0.5, min_num_of_segments=lo] *)
Definition capped_at_half (k lo : Z) : args :=
  {| coverage := None; num_of_segments := Some k;
     min_coverage := 0%Q; max_coverage := (1#2)%Q;
     min_num_of_segments := lo; max_num_of_segments := None |}.

(** One overlay of two cells, as the only object of a store. *)
Definition two_pixels : overlay :=
  {| oshape0 := 1; oshape1 := 2;
     pixels := [ {| ch0 := 0; ch1 := 255; ch2 := 0; ch3 := 128 |};
                 {| ch0 := 0; ch1 := 255; ch2 := 0; ch3 := 128 |} ] |}.

(** * Proofs *)

(** ** Floats *)

Lemma Qltb_lt (a b : Q) : Qltb a b = true <-> (a < b)%Q.
Proof.
  unfold Qltb. rewrite negb_true_iff.
  split; intros H.
  - apply Qnot_le_lt. intros Hle. apply Qle_bool_iff in Hle. congruence.
  - destruct (Qle_bool b a) eqn:E; [|reflexivity].
    apply Qle_bool_iff in E. exfalso. exact (Qlt_not_le _ _ H E).
Qed.

Lemma Qltb_ge (a b : Q) : Qltb a b = false <-> (b <= a)%Q.
Proof.
  unfold Qltb. rewrite negb_false_iff. apply Qle_bool_iff.
Qed.

Lemma fmin_spec (a b : Q) : (fmin a b <= a)%Q /\ (fmin a b <= b)%Q.
Proof.
  unfold fmin. destruct (Qltb b a) eqn:E.
  - apply Qltb_lt in E. split; [apply Qlt_le_weak, E | apply Qle_refl].
  - apply Qltb_ge in E. split; [apply Qle_refl | exact E].
Qed.

Lemma fmax_spec (a b : Q) : (a <= fmax a b)%Q /\ (b <= fmax a b)%Q.
Proof.
  unfold fmax. destruct (Qltb a b) eqn:E.
  - apply Qltb_lt in E. split; [apply Qlt_le_weak, E | apply Qle_refl].
  - apply Qltb_ge in E. split; [apply Qle_refl | exact E].
Qed.

Lemma fmin_mono (a a' b : Q) : (a <= a')%Q -> (fmin a b <= fmin a' b)%Q.
Proof.
  intros H. unfold fmin.
  destruct (Qltb b a) eqn:E, (Qltb b a') eqn:E'.
  - apply Qle_refl.
  - apply Qltb_lt in E. apply Qltb_ge in E'.
    exfalso. apply (Qlt_not_le _ _ E). eapply Qle_trans; eassumption.
  - apply Qltb_ge in E. exact E.
  - exact H.
Qed.

Lemma fmax_mono (a a' b : Q) : (a <= a')%Q -> (fmax a b <= fmax a' b)%Q.
Proof.
  intros H. unfold fmax.
  destruct (Qltb a b) eqn:E, (Qltb a' b) eqn:E'.
  - apply Qle_refl.
  - apply Qltb_ge in E'. exact E'.
  - apply Qltb_ge in E. apply Qltb_lt in E'.
    apply Qlt_le_weak. eapply Qle_lt_trans; eassumption.
  - exact H.
Qed.

Lemma clamp_coverage_mono (c c' lo hi : Q) :
  (c <= c')%Q ->
  (clamp_coverage c lo hi <= clamp_coverage c' lo hi)%Q.
Proof.
  intros H. unfold clamp_coverage. apply fmax_mono, fmin_mono, H.
Qed.

(** ** Slices and coverage counts *)

Example slice_to_counts_from_the_end :
  slice_to (-2) [10; 11; 12; 13; 14] = [10; 11; 12] /\
  slice_to 2 [10; 11; 12; 13; 14] = [10; 11] /\
  slice_to (-7) [10; 11; 12; 13; 14] = [] /\
  slice_to 9 [10; 11; 12; 13; 14] = [10; 11; 12; 13; 14].
Proof. repeat split. Qed.

Example py_index_counts_from_the_end :
  py_index [10; 11; 12] (-1) = inr 12 /\
  py_index [10; 11; 12] 0 = inr 10 /\
  py_index [10; 11; 12] 3 = inl IndexOutOfBounds /\
  py_index [10; 11; 12] (-4) = inl IndexOutOfBounds.
Proof. repeat split. Qed.

(** No pixels: [np.max] raises when the maximum has to be derived, and the
    measured coverage is NaN when it is given. *)
Example image_without_pixels :
  select_segments argsort_stable 2 [] {| shape0 := 0; shape1 := 3; labels := [] |}
    (by_count 1) = Some (inl ZeroSizeReduction) /\
  select_segments argsort_stable 2 [] {| shape0 := 0; shape1 := 3; labels := [] |}
    {| coverage := Some (1#2)%Q; num_of_segments := None;
       min_coverage := 0%Q; max_coverage := 1%Q;
       min_num_of_segments := 0%Z; max_num_of_segments := Some 4%Z |}
  = Some (inr []).
Proof. split; reflexivity. Qed.

Lemma slice_to_nonneg {A : Type} (k : Z) (l : list A) :
  (0 <= k)%Z -> slice_to k l = firstn (Z.to_nat k) l.
Proof.
  intros Hk. unfold slice_to.
  destruct (Z.ltb_spec k 0); [lia | reflexivity].
Qed.

Lemma slice_to_prefix {A : Type} (k : Z) (l : list A) :
  exists n, slice_to k l = firstn n l.
Proof.
  unfold slice_to. destruct (k <? 0)%Z; eauto.
Qed.

Lemma isin_In (sel : list nat) (l : nat) : isin sel l = true <-> In l sel.
Proof.
  unfold isin. rewrite existsb_exists. split.
  - intros [x [Hin Heq]]. apply Nat.eqb_eq in Heq. subst. exact Hin.
  - intros Hin. exists l. split; [exact Hin | apply Nat.eqb_refl].
Qed.

Lemma firstn_In_le {A : Type} (i j : nat) (l : list A) (x : A) :
  i <= j -> In x (firstn i l) -> In x (firstn j l).
Proof.
  revert j l. induction i as [|i IH]; intros j l Hij Hin; simpl in Hin.
  - contradiction.
  - destruct l as [|y l]; [contradiction|].
    destruct j as [|j]; [lia|]. simpl in *.
    destruct Hin as [->|Hin]; [now left | right; apply IH; [lia | exact Hin]].
Qed.

Lemma filter_length_mono {A : Type} (p q : A -> bool) (l : list A) :
  (forall x, In x l -> p x = true -> q x = true) ->
  length (filter p l) <= length (filter q l).
Proof.
  induction l as [|x l IH]; simpl; intros H; [lia|].
  assert (IH' : length (filter p l) <= length (filter q l))
    by (apply IH; intros y Hy; apply H; now right).
  destruct (p x) eqn:Ep.
  - rewrite (H x (or_introl eq_refl) Ep). simpl. lia.
  - destruct (q x); simpl; lia.
Qed.

Lemma filter_length_le {A : Type} (p : A -> bool) (l : list A) :
  length (filter p l) <= length l.
Proof.
  induction l as [|x l IH]; simpl; [lia|]. destruct (p x); simpl; lia.
Qed.

(** A longer prefix of the rank order covers at least as many cells. *)
Lemma isin_sum_prefix_mono (m : mask) (order : list nat) (i j : nat) :
  i <= j -> isin_sum m (firstn i order) <= isin_sum m (firstn j order).
Proof.
  intros Hij. unfold isin_sum. apply filter_length_mono.
  intros x _ Hx. apply isin_In. apply isin_In in Hx.
  eapply firstn_In_le; eassumption.
Qed.

Lemma isin_sum_le_area (m : mask) (sel : list nat) :
  wf_mask m -> isin_sum m sel <= area m.
Proof.
  unfold wf_mask, isin_sum, area. intros <-. apply filter_length_le.
Qed.

Lemma Zpos_of_nat (n : nat) : n <> 0 -> Z.pos (Pos.of_nat n) = Z.of_nat n.
Proof.
  intros Hn. destruct n as [|n]; [contradiction|].
  rewrite <- Pos.of_nat_succ, Zpos_P_of_succ_nat. lia.
Qed.

Lemma covered_fraction_some (m : mask) (sel : list nat) (q : Q) :
  covered_fraction m sel = Some q ->
  area m <> 0 /\ q = Qmake (Z.of_nat (isin_sum m sel)) (Pos.of_nat (area m)).
Proof.
  unfold covered_fraction. destruct (Nat.eqb_spec (area m) 0); intros H.
  - discriminate.
  - injection H as <-. split; [assumption | reflexivity].
Qed.

Lemma covered_fraction_defined (m : mask) (sel : list nat) :
  area m <> 0 ->
  covered_fraction m sel =
    Some (Qmake (Z.of_nat (isin_sum m sel)) (Pos.of_nat (area m))).
Proof.
  intros H. unfold covered_fraction.
  destruct (Nat.eqb_spec (area m) 0); [contradiction | reflexivity].
Qed.

(** A measured coverage is a fraction: it lies between 0 and 1. *)
Lemma covered_fraction_range (m : mask) (sel : list nat) (q : Q) :
  wf_mask m -> covered_fraction m sel = Some q -> (0 <= q)%Q /\ (q <= 1)%Q.
Proof.
  intros Hwf H. apply covered_fraction_some in H as [Ha ->].
  pose proof (isin_sum_le_area m sel Hwf) as Hle.
  unfold Qle; simpl. rewrite (Zpos_of_nat _ Ha). lia.
Qed.

Lemma fgt_fraction_one (m : mask) (sel : list nat) :
  wf_mask m -> fgt (covered_fraction m sel) 1%Q = false.
Proof.
  intros Hwf. destruct (covered_fraction m sel) as [q|] eqn:E; simpl; [|reflexivity].
  apply Qltb_ge. eapply covered_fraction_range; eassumption.
Qed.

Lemma flt_fraction_zero (m : mask) (sel : list nat) :
  flt (covered_fraction m sel) 0%Q = false.
Proof.
  destruct (covered_fraction m sel) as [q|] eqn:E; simpl; [|reflexivity].
  apply Qltb_ge. apply covered_fraction_some in E as [_ ->].
  unfold Qle; simpl. lia.
Qed.

(** ** The recursive call *)

Lemma np_max_nonempty (m : mask) :
  labels m <> [] -> exists x, np_max m = inr x.
Proof.
  unfold np_max. destruct (labels m); [contradiction | eauto].
Qed.

Lemma area_labels (m : mask) : wf_mask m -> area m <> 0 -> labels m <> [].
Proof.
  unfold wf_mask, area. intros Hwf Ha Hnil. rewrite Hnil in Hwf. simpl in Hwf. lia.
Qed.

Lemma effective_max_unset (m : mask) (a : args) (x : nat) :
  max_num_of_segments a = None -> np_max m = inr x ->
  effective_max m a = inr (Z.of_nat x + 1)%Z.
Proof.
  intros Ha Hx. unfold effective_max. rewrite Ha, Hx. reflexivity.
Qed.

(** With the keyword defaults no check fails and no bound can be violated:
    the call returns its candidate at once. *)
Lemma select_segments_defaults argsort (n : nat) (w : list Q) (m : mask)
  (a : args) (x : nat) :
  wf_mask m -> np_max m = inr x ->
  min_coverage a = 0%Q -> max_coverage a = 1%Q ->
  min_num_of_segments a = 0%Z -> max_num_of_segments a = None ->
  (coverage a = None <-> num_of_segments a <> None) ->
  let maxn := (Z.of_nat x + 1)%Z in
  select_segments argsort (S n) w m a =
    Some (inr (candidate argsort w
                 (clamp_count (requested_count argsort w m a maxn) 0 maxn))).
Proof.
  intros Hwf Hx Hminc Hmaxc Hminn Hmaxn Hone maxn. simpl.
  rewrite (effective_max_unset m a x Hmaxn Hx). fold maxn.
  assert (Hcfg : check_config a maxn = None).
  { unfold check_config. rewrite Hminc, Hmaxc, Hminn.
    destruct (coverage a), (num_of_segments a).
    - exfalso. destruct Hone as [_ H]. discriminate H. discriminate.
    - simpl. destruct (Z.leb_spec maxn 0); [unfold maxn in *; lia | reflexivity].
    - simpl. destruct (Z.leb_spec maxn 0); [unfold maxn in *; lia | reflexivity].
    - exfalso. destruct Hone as [H _]. now apply H. }
  rewrite Hcfg, Hminc, Hmaxc, Hminn.
  rewrite (fgt_fraction_one m _ Hwf), flt_fraction_zero. reflexivity.
Qed.

Lemma select_segments_by_coverage argsort (n : nat) (w : list Q) (m : mask)
  (c : Q) (x : nat) :
  wf_mask m -> np_max m = inr x ->
  let maxn := (Z.of_nat x + 1)%Z in
  select_segments argsort (S n) w m (by_coverage c) =
    Some (inr (candidate argsort w
      (clamp_count (scan_coverage argsort w m (clamp_coverage c 0 1) maxn) 0 maxn))).
Proof.
  intros Hwf Hx maxn.
  rewrite (select_segments_defaults argsort n w m (by_coverage c) x Hwf Hx);
    try reflexivity.
  simpl. split; intros H; [discriminate | now elim H].
Qed.

Lemma select_segments_by_count argsort (n : nat) (w : list Q) (m : mask)
  (k : Z) (x : nat) :
  wf_mask m -> np_max m = inr x ->
  let maxn := (Z.of_nat x + 1)%Z in
  select_segments argsort (S n) w m (by_count k) =
    Some (inr (candidate argsort w (clamp_count k 0 maxn))).
Proof.
  intros Hwf Hx maxn.
  rewrite (select_segments_defaults argsort n w m (by_count k) x Hwf Hx);
    try reflexivity.
  simpl. split; intros H; [discriminate | reflexivity].
Qed.

(** Whatever a call returns is a prefix of the rank order. *)
Lemma select_segments_prefix argsort (fuel : nat) (w : list Q) (m : mask)
  (a : args) (sel : list nat) :
  select_segments argsort fuel w m a = Some (inr sel) ->
  exists n, sel = firstn n (ordered_segments argsort w).
Proof.
  revert a. induction fuel as [|fuel IH]; intros a; simpl; [discriminate|].
  destruct (effective_max m a) as [e|maxn]; [discriminate|].
  destruct (check_config a maxn); [discriminate|].
  destruct (fgt _ (max_coverage a)); [apply IH|].
  destruct (flt _ (min_coverage a)); [apply IH|].
  intros H. injection H as <-. apply slice_to_prefix.
Qed.

(** ** Count-driven selection *)



(** ** Errors *)

Lemma check_config_fails (a : args) (maxn : Z) :
  check_config a maxn <> None <->
  (coverage a = None /\ num_of_segments a = None) \/
  (coverage a <> None /\ num_of_segments a <> None) \/
  (max_coverage a <= min_coverage a)%Q \/
  (maxn <= min_num_of_segments a)%Z.
Proof.
  unfold check_config.
  destruct (coverage a) as [c|], (num_of_segments a) as [k|];
    try (split; [intros _; (now left) || (right; left; split; discriminate)
                | discriminate]).
  - destruct (Qle_bool (max_coverage a) (min_coverage a)) eqn:E.
    + split; [|discriminate]. intros _. right; right; left. now apply Qle_bool_iff.
    + destruct (Z.leb_spec maxn (min_num_of_segments a)) as [Hz|Hz].
      * split; [|discriminate]. intros _. now repeat right.
      * split; [intros H; now elim H|].
        intros [[H _]|[[_ H]|[H|H]]]; try discriminate; try (now elim H); try lia.
        apply Qle_bool_iff in H. congruence.
  - destruct (Qle_bool (max_coverage a) (min_coverage a)) eqn:E.
    + split; [|discriminate]. intros _. right; right; left. now apply Qle_bool_iff.
    + destruct (Z.leb_spec maxn (min_num_of_segments a)) as [Hz|Hz].
      * split; [|discriminate]. intros _. now repeat right.
      * split; [intros H; now elim H|].
        intros [[_ H]|[[H _]|[H|H]]]; try discriminate; try (now elim H); try lia.
        apply Qle_bool_iff in H. congruence.
Qed.

Lemma check_config_is_config_error (a : args) (maxn : Z) (e : error) :
  check_config a maxn = Some e -> is_config_error e = true.
Proof.
  unfold check_config.
  destruct (coverage a), (num_of_segments a);
    try (intros H; injection H as <-; reflexivity);
    destruct (Qle_bool _ _); try (intros H; injection H as <-; reflexivity);
    destruct (_ <=? _)%Z; try discriminate; intros H; injection H as <-; reflexivity.
Qed.

(** An exception of [select_segments] comes from line 66 or from the checks
    of lines 68-80 of the outermost call, which read neither the weights nor
    the rank order. *)
Lemma select_segments_raises argsort (n : nat) (w : list Q) (m : mask)
  (a : args) (e : error) :
  wf_mask m ->
  select_segments argsort (S (S n)) w m a = Some (inl e) <->
  effective_max m a = inl e \/
  exists maxn, effective_max m a = inr maxn /\ check_config a maxn = Some e.
Proof.
  intros Hwf. cbn [select_segments].
  destruct (effective_max m a) as [e'|maxn] eqn:Emax.
  - split.
    + intros H. injection H as ->. now left.
    + intros [H|[maxn [H _]]]; [injection H as -> | discriminate]. reflexivity.
  - destruct (check_config a maxn) as [e'|] eqn:Ecfg.
    + split.
      * intros H. injection H as ->. right. exists maxn. now split.
      * intros [H|[maxn' [H H']]]; [discriminate|].
        injection H as <-. rewrite Ecfg in H'. injection H' as ->. reflexivity.
    + assert (Hrec : forall c sel,
                covered_fraction m sel <> None ->
                select_segments argsort (S n) w m (by_coverage c) <> Some (inl e)).
      { intros c sel Hsome.
        destruct (covered_fraction m sel) as [q|] eqn:Eq; [|now elim Hsome].
        apply covered_fraction_some in Eq as [Ha _].
        destruct (np_max_nonempty m (area_labels m Hwf Ha)) as [x Hx].
        rewrite (select_segments_by_coverage argsort n w m c x Hwf Hx). discriminate. }
      split.
      * intros H. exfalso.
        destruct (fgt _ (max_coverage a)) eqn:Egt.
        -- revert H. apply Hrec with (sel := candidate argsort w
             (clamp_count (requested_count argsort w m a maxn)
                          (min_num_of_segments a) maxn)).
           intros Hn. rewrite Hn in Egt. discriminate.
        -- destruct (flt _ (min_coverage a)) eqn:Elt; [|discriminate].
           revert H. apply Hrec with (sel := candidate argsort w
             (clamp_count (requested_count argsort w m a maxn)
                          (min_num_of_segments a) maxn)).
           intros Hn. rewrite Hn in Elt. discriminate.
      * intros [H|[maxn' [H H']]]; [discriminate|].
        injection H as <-. rewrite Ecfg in H'. discriminate.
Qed.

(** X2.  On an image with at least one cell, a call raises exactly when
    both or neither of [coverage] and [num_of_segments] are given, or the
    coverage bounds or the count bounds are not strictly ordered, the maximum
    count being the one in force after line 66; and what it raises is one of
    the four errors of lines 68-80. *)
Lemma select_segments_raises_iff argsort (n : nat) (w : list Q) (m : mask)
  (a : args) :
  wf_mask m -> labels m <> [] ->
  exists maxn, effective_max m a = inr maxn /\
    ((exists e, select_segments argsort (S (S n)) w m a = Some (inl e)) <->
     (coverage a = None /\ num_of_segments a = None) \/
     (coverage a <> None /\ num_of_segments a <> None) \/
     (max_coverage a <= min_coverage a)%Q \/
     (maxn <= min_num_of_segments a)%Z) /\
    (forall e, select_segments argsort (S (S n)) w m a = Some (inl e) ->
               is_config_error e = true).
Proof.
  intros Hwf Hne. destruct (np_max_nonempty m Hne) as [x Hx].
  assert (Hmax : exists maxn, effective_max m a = inr maxn).
  { unfold effective_max. rewrite Hx.
    destruct (max_num_of_segments a) as [k|]; [destruct (k =? 0)%Z|]; eauto. }
  destruct Hmax as [maxn Hmax]. exists maxn. split; [exact Hmax|].
  assert (Hraise : forall e,
            select_segments argsort (S (S n)) w m a = Some (inl e) <->
            check_config a maxn = Some e).
  { intros e. rewrite (select_segments_raises argsort n w m a e Hwf), Hmax.
    split.
    - intros [H|[maxn' [H H']]]; [discriminate|]. now injection H as <-.
    - intros H. right. exists maxn. now split. }
  split.
  - rewrite <- check_config_fails. split.
    + intros [e He]. apply Hraise in He. congruence.
    + intros H. destruct (check_config a maxn) as [e|] eqn:E; [|now elim H].
      exists e. now apply Hraise.
  - intros e He. apply Hraise in He.
    eapply check_config_is_config_error; eassumption.
Qed.

(** C2.  Passing [max_num_of_segments=0] together with the default
    [min_num_of_segments=0] violates [min_num_of_segments <
    max_num_of_segments], yet the call raises nothing: line 66 replaces the 0
    by the derived maximum, 2, before the checks run, and the call returns
    both ids. *)
Theorem zero_max_num_of_segments_accepted :
  let a := {| coverage := None; num_of_segments := Some 1%Z;
              min_coverage := 0%Q; max_coverage := 1%Q;
              min_num_of_segments := 0%Z; max_num_of_segments := Some 0%Z |} in
  (exists supplied, max_num_of_segments a = Some supplied /\
                    (min_num_of_segments a >= supplied)%Z) /\
  effective_max two_cells a = inr 2%Z /\
  select_segments argsort_stable 2 [2#1; 1#1]%Q two_cells a = Some (inr [0; 1]).
Proof.
  cbv zeta. split; [|split; reflexivity].
  exists 0%Z. split; [reflexivity | simpl; lia].
Qed.

(** ** Termination and the depth of the recursion *)

(** C3.  A call that passes the checks returns a selection, and it needs at
    most one nested invocation: either the outermost invocation returns its
    candidate, or it calls itself once, with [coverage] set to the violated
    bound, and that invocation returns without calling further. *)
Theorem select_segments_depth_at_most_one argsort (w : list Q) (m : mask)
  (a : args) (maxn : Z) :
  wf_mask m ->
  effective_max m a = inr maxn -> check_config a maxn = None ->
  exists sel,
    (forall n, select_segments argsort (S (S n)) w m a = Some (inr sel)) /\
    (select_segments argsort 1 w m a = Some (inr sel) \/
     exists c, (c = max_coverage a \/ c = min_coverage a) /\
       select_segments argsort 1 w m a = None /\
       forall n, select_segments argsort (S n) w m (by_coverage c) = Some (inr sel)).
Proof.
  intros Hwf Emax Ecfg.
  set (sel := candidate argsort w
     (clamp_count (requested_count argsort w m a maxn) (min_num_of_segments a) maxn)).
  assert (Hrec : forall c, covered_fraction m sel <> None ->
            exists r, forall n,
              select_segments argsort (S n) w m (by_coverage c) = Some (inr r)).
  { intros c Hsome.
    destruct (covered_fraction m sel) as [q|] eqn:Eq; [|now elim Hsome].
    apply covered_fraction_some in Eq as [Ha _].
    destruct (np_max_nonempty m (area_labels m Hwf Ha)) as [x Hx].
    eexists. intros n. apply (select_segments_by_coverage argsort n w m c x Hwf Hx). }
  cbn [select_segments]. rewrite Emax, Ecfg. fold sel.
  destruct (fgt (covered_fraction m sel) (max_coverage a)) eqn:Egt.
  - destruct (Hrec (max_coverage a)) as [r Hr].
    { intros Hn. rewrite Hn in Egt. discriminate. }
    exists r. split; [intros n; apply Hr|].
    right. exists (max_coverage a). repeat split; auto.
  - destruct (flt (covered_fraction m sel) (min_coverage a)) eqn:Elt.
    + destruct (Hrec (min_coverage a)) as [r Hr].
      { intros Hn. rewrite Hn in Elt. discriminate. }
      exists r. split; [intros n; apply Hr|].
      right. exists (min_coverage a). repeat split; auto.
    + exists sel. split; [reflexivity | now left].
Qed.

Lemma select_segments_depth_at_most_one_witness :
  exists sel,
    (forall n, select_segments argsort_stable (S (S n)) [2#1; 1#1]%Q two_cells
                 (capped_at_half 1 0) = Some (inr sel)) /\
    (select_segments argsort_stable 1 [2#1; 1#1]%Q two_cells (capped_at_half 1 0)
     = Some (inr sel) \/
     exists c, (c = (1#2)%Q \/ c = 0%Q) /\
       select_segments argsort_stable 1 [2#1; 1#1]%Q two_cells (capped_at_half 1 0)
       = None /\
       forall n, select_segments argsort_stable (S n) [2#1; 1#1]%Q two_cells
                   (by_coverage c) = Some (inr sel)).
Proof.
  apply (select_segments_depth_at_most_one argsort_stable [2#1; 1#1]%Q
           two_cells (capped_at_half 1 0) 2%Z); reflexivity.
Defined.

(** ** What the recursive call keeps of the caller's arguments *)

(** C8.  When the candidate of a call that passed the checks violates
    [max_coverage] (or else [min_coverage]), the call returns what
    [select_segments(segment_weights, segment_mask, coverage=c)] returns for
    the violated bound [c]: that selection is computed from [c], the keyword
    defaults 0.0, 1.0 and 0, and the maximum derived from the mask, and from
    none of the caller's four bounds. *)
Theorem recursive_call_drops_caller_bounds argsort (n : nat) (w : list Q)
  (m : mask) (a : args) (maxn : Z) (c : Q) :
  wf_mask m ->
  effective_max m a = inr maxn -> check_config a maxn = None ->
  let sel := candidate argsort w
    (clamp_count (requested_count argsort w m a maxn) (min_num_of_segments a) maxn) in
  (fgt (covered_fraction m sel) (max_coverage a) = true /\ c = max_coverage a) \/
  (fgt (covered_fraction m sel) (max_coverage a) = false /\
   flt (covered_fraction m sel) (min_coverage a) = true /\ c = min_coverage a) ->
  select_segments argsort (S (S n)) w m a =
    select_segments argsort (S n) w m (by_coverage c) /\
  exists x, np_max m = inr x /\
    let derived := (Z.of_nat x + 1)%Z in
    select_segments argsort (S (S n)) w m a =
      Some (inr (candidate argsort w
        (clamp_count (scan_coverage argsort w m (clamp_coverage c 0 1) derived)
                     0 derived))).
Proof.
  intros Hwf Emax Ecfg sel Hviol.
  assert (Hcall : select_segments argsort (S (S n)) w m a =
                  select_segments argsort (S n) w m (by_coverage c)).
  { cbn [select_segments]. rewrite Emax, Ecfg. fold sel.
    destruct Hviol as [[Hgt ->]|[Hgt [Hlt ->]]].
    - rewrite Hgt. reflexivity.
    - rewrite Hgt, Hlt. reflexivity. }
  split; [exact Hcall|].
  assert (Ha : area m <> 0).
  { destruct (covered_fraction m sel) as [q|] eqn:Eq.
    - apply covered_fraction_some in Eq. tauto.
    - destruct Hviol as [[Hgt _]|[_ [Hlt _]]]; discriminate. }
  destruct (np_max_nonempty m (area_labels m Hwf Ha)) as [x Hx].
  exists x. split; [exact Hx|].
  intros derived. rewrite Hcall.
  apply (select_segments_by_coverage argsort n w m c x Hwf Hx).
Qed.

Lemma recursive_call_drops_caller_bounds_witness :
  select_segments argsort_stable 2 [2#1; 1#1; 3#1]%Q three_cells (capped_at_half 0 2)
  = select_segments argsort_stable 1 [2#1; 1#1; 3#1]%Q three_cells
      (by_coverage (1#2)) /\
  exists x, np_max three_cells = inr x /\
    select_segments argsort_stable 2 [2#1; 1#1; 3#1]%Q three_cells
      (capped_at_half 0 2)
    = Some (inr (candidate argsort_stable [2#1; 1#1; 3#1]%Q
        (clamp_count
           (scan_coverage argsort_stable [2#1; 1#1; 3#1]%Q three_cells
              (clamp_coverage (1#2) 0 1) (Z.of_nat x + 1))
           0 (Z.of_nat x + 1)))).
Proof.
  apply (recursive_call_drops_caller_bounds argsort_stable 0 [2#1; 1#1; 3#1]%Q
           three_cells (capped_at_half 0 2) 3%Z (1#2)%Q);
    try reflexivity.
  left. split; reflexivity.
Defined.

(** The caller asked for at least two segments; the selection that comes
    back through the recursive call holds one. *)
Example recursive_call_ignores_min_num_of_segments :
  select_segments argsort_stable 2 [2#1; 1#1; 3#1]%Q three_cells (capped_at_half 0 2)
  = Some (inr [2]).
Proof. reflexivity. Qed.

(** ** Monotonicity *)

Lemma find_seq_first (p : nat -> bool) (a n i : nat) :
  find p (seq a n) = Some i ->
  p i = true /\ a <= i < a + n /\ forall j, a <= j < i -> p j = false.
Proof.
  revert a. induction n as [|n IH]; intros a; simpl; [discriminate|].
  destruct (p a) eqn:Ea.
  - intros H. injection H as <-.
    split; [exact Ea|]. split; [lia|]. intros j Hj. lia.
  - intros H. apply IH in H as [Hp [Hr Hfirst]].
    split; [exact Hp|]. split; [lia|].
    intros j Hj. destruct (Nat.eq_dec j a) as [->|Hne]; [exact Ea|].
    apply Hfirst. lia.
Qed.

Lemma find_seq_none (p : nat -> bool) (a n : nat) :
  find p (seq a n) = None -> forall j, a <= j < a + n -> p j = false.
Proof.
  intros H j Hj. apply (find_none p (seq a n) H). apply in_seq. exact Hj.
Qed.

Lemma find_seq_some (p : nat -> bool) (a n j : nat) :
  a <= j < a + n -> p j = true ->
  exists i, find p (seq a n) = Some i /\ i <= j.
Proof.
  intros Hj Hp. destruct (find p (seq a n)) as [i|] eqn:E.
  - exists i. split; [reflexivity|].
    apply find_seq_first in E as [_ [_ Hfirst]].
    destruct (Nat.le_gt_cases i j) as [Hle|Hgt]; [exact Hle|].
    rewrite Hfirst in Hp by lia. discriminate.
  - rewrite (find_seq_none p a n E j Hj) in Hp. discriminate.
Qed.

Lemma fge_antitone (x : option Q) (c c' : Q) :
  (c <= c')%Q -> fge x c' = true -> fge x c = true.
Proof.
  intros Hc. destruct x as [q|]; simpl; [|discriminate].
  rewrite !Qle_bool_iff. intros H. eapply Qle_trans; eassumption.
Qed.

(** A larger target is reached no earlier in the scan. *)
Lemma scan_coverage_mono argsort (w : list Q) (m : mask) (c c' : Q) (maxn : Z) :
  (c <= c')%Q ->
  (scan_coverage argsort w m c maxn <= scan_coverage argsort w m c' maxn)%Z.
Proof.
  intros Hc. unfold scan_coverage.
  destruct (find (reaches argsort w m c') _) as [i'|] eqn:E'.
  - apply find_seq_first in E' as [Hp [Hr _]].
    destruct (find_seq_some (reaches argsort w m c) 0 (Z.to_nat (maxn + 1)) i' Hr)
      as [i [-> Hle]].
    + unfold reaches in *. eapply fge_antitone; eassumption.
    + lia.
  - destruct (find (reaches argsort w m c) _) as [i|] eqn:E; [|lia].
    apply find_seq_first in E as [_ [Hr _]]. lia.
Qed.

Lemma clamp_count_mono (k k' lo hi : Z) :
  (k <= k')%Z -> (clamp_count k lo hi <= clamp_count k' lo hi)%Z.
Proof. unfold clamp_count. lia. Qed.

Lemma candidate_mono argsort (w : list Q) (m : mask) (k k' : Z) :
  (0 <= k <= k')%Z ->
  isin_sum m (candidate argsort w k) <= isin_sum m (candidate argsort w k').
Proof.
  intros Hk. unfold candidate. rewrite !slice_to_nonneg by lia.
  apply isin_sum_prefix_mono. lia.
Qed.

(** C7.  For a mask with at least one cell and the default bounds, every
    request returns a selection, and the measured coverage of the selection
    does not decrease when [num_of_segments] grows, nor when the [coverage]
    target grows. *)
Theorem coverage_monotone_in_request argsort (n : nat) (w : list Q) (m : mask) :
  wf_mask m -> labels m <> [] ->
  (forall k1 k2 : Z, (k1 <= k2)%Z ->
     exists s1 s2 q1 q2,
       select_segments argsort (S n) w m (by_count k1) = Some (inr s1) /\
       select_segments argsort (S n) w m (by_count k2) = Some (inr s2) /\
       covered_fraction m s1 = Some q1 /\ covered_fraction m s2 = Some q2 /\
       (q1 <= q2)%Q) /\
  (forall c1 c2 : Q, (c1 <= c2)%Q ->
     exists s1 s2 q1 q2,
       select_segments argsort (S n) w m (by_coverage c1) = Some (inr s1) /\
       select_segments argsort (S n) w m (by_coverage c2) = Some (inr s2) /\
       covered_fraction m s1 = Some q1 /\ covered_fraction m s2 = Some q2 /\
       (q1 <= q2)%Q).
Proof.
  intros Hwf Hne.
  destruct (np_max_nonempty m Hne) as [x Hx].
  assert (Ha : area m <> 0).
  { unfold wf_mask in Hwf. unfold area. rewrite <- Hwf.
    destruct (labels m); [contradiction | discriminate]. }
  set (maxn := (Z.of_nat x + 1)%Z).
  assert (Hgrow : forall k k', (k <= k')%Z ->
    exists q q',
      covered_fraction m (candidate argsort w (clamp_count k 0 maxn)) = Some q /\
      covered_fraction m (candidate argsort w (clamp_count k' 0 maxn)) = Some q' /\
      (q <= q')%Q).
  { intros k k' Hk. do 2 eexists.
    split; [apply covered_fraction_defined, Ha|].
    split; [apply covered_fraction_defined, Ha|].
    unfold Qle; simpl. apply Z.mul_le_mono_nonneg_r; [lia|].
    apply Nat2Z.inj_le, candidate_mono.
    pose proof (clamp_count_mono k k' 0 maxn Hk). unfold clamp_count in *. lia. }
  split.
  - intros k1 k2 Hk.
    destruct (Hgrow k1 k2 Hk) as [q1 [q2 [H1 [H2 Hq]]]].
    exists (candidate argsort w (clamp_count k1 0 maxn)),
           (candidate argsort w (clamp_count k2 0 maxn)), q1, q2.
    repeat split; try assumption;
      apply (select_segments_by_count argsort n w m _ x Hwf Hx).
  - intros c1 c2 Hc.
    destruct (Hgrow (scan_coverage argsort w m (clamp_coverage c1 0 1) maxn)
                    (scan_coverage argsort w m (clamp_coverage c2 0 1) maxn))
      as [q1 [q2 [H1 [H2 Hq]]]].
    { apply scan_coverage_mono, clamp_coverage_mono, Hc. }
    do 2 eexists. exists q1, q2.
    split; [apply (select_segments_by_coverage argsort n w m c1 x Hwf Hx)|].
    split; [apply (select_segments_by_coverage argsort n w m c2 x Hwf Hx)|].
    repeat split; assumption.
Qed.

Lemma coverage_monotone_in_request_witness :
  (exists s1 s2 q1 q2,
     select_segments argsort_stable 1 [2#1; 1#1]%Q two_cells (by_count 0)
       = Some (inr s1) /\
     select_segments argsort_stable 1 [2#1; 1#1]%Q two_cells (by_count 1)
       = Some (inr s2) /\
     covered_fraction two_cells s1 = Some q1 /\
     covered_fraction two_cells s2 = Some q2 /\ (q1 <= q2)%Q) /\
  (exists s1 s2 q1 q2,
     select_segments argsort_stable 1 [2#1; 1#1]%Q two_cells (by_coverage (1#4))
       = Some (inr s1) /\
     select_segments argsort_stable 1 [2#1; 1#1]%Q two_cells (by_coverage (3#4))
       = Some (inr s2) /\
     covered_fraction two_cells s1 = Some q1 /\
     covered_fraction two_cells s2 = Some q2 /\ (q1 <= q2)%Q).
Proof.
  destruct (coverage_monotone_in_request argsort_stable 0 [2#1; 1#1]%Q two_cells)
    as [Hk Hc]; [reflexivity | discriminate |].
  split; [apply (Hk 0%Z 1%Z); lia | apply (Hc (1#4)%Q (3#4)%Q); discriminate].
Defined.

(** ** The rank order *)

Section InsertionSorted.

Variable R : nat -> nat -> Prop.
Variable before : nat -> nat -> bool.
Hypothesis R_trans : forall a b c, R a b -> R b c -> R a c.

Lemma insert_by_perm x l : Permutation (insert_by before x l) (x :: l).
Proof.
  induction l as [|y l IH]; simpl.
  - apply Permutation_refl.
  - destruct (before x y).
    + apply Permutation_refl.
    + eapply Permutation_trans; [apply perm_skip, IH | apply perm_swap].
Qed.

Lemma isort_perm l : Permutation (isort before l) l.
Proof.
  induction l as [|x l IH]; simpl.
  - apply perm_nil.
  - eapply Permutation_trans; [apply insert_by_perm | apply perm_skip, IH].
Qed.

Lemma insert_by_sorted x l :
  Forall (decides R before x) l -> StronglySorted R l ->
  StronglySorted R (insert_by before x l).
Proof.
  induction l as [|y l IH]; simpl; intros Hd Hs.
  - constructor; constructor.
  - inversion Hd as [|? ? Hxy Hd']; subst.
    inversion Hs as [|? ? Hs' Hy]; subst.
    unfold decides in Hxy. destruct (before x y) eqn:E.
    + constructor; [assumption|].
      constructor; [assumption|].
      eapply Forall_impl; [|exact Hy]. intros z Hz. eauto.
    + constructor; [apply IH; assumption|].
      apply (Permutation_Forall (Permutation_sym (insert_by_perm x l))).
      constructor; assumption.
Qed.

Lemma isort_sorted l :
  StronglySorted (decides R before) l -> StronglySorted R (isort before l).
Proof.
  induction l as [|x l IH]; simpl; intros Hs.
  - constructor.
  - inversion Hs as [|? ? Hs' Hx]; subst.
    apply insert_by_sorted; [|apply IH; assumption].
    apply (Permutation_Forall (Permutation_sym (isort_perm l))).
    assumption.
Qed.

End InsertionSorted.

Lemma StronglySorted_seq (P : nat -> nat -> Prop) (a n : nat) :
  (forall x y, x < y -> P x y) -> StronglySorted P (seq a n).
Proof.
  intros HP. revert a. induction n as [|n IH]; intros a; simpl.
  - constructor.
  - constructor; [apply IH|].
    apply Forall_forall. intros y Hy. apply in_seq in Hy. apply HP. lia.
Qed.

Lemma StronglySorted_nth {A : Type} (R : A -> A -> Prop) (l : list A) :
  StronglySorted R l ->
  forall i j a b, i < j -> nth_error l i = Some a -> nth_error l j = Some b -> R a b.
Proof.
  induction 1 as [|x l Hs IH Hx]; intros i j a b Hij Hi Hj.
  - destruct i; discriminate.
  - destruct j as [|j]; [lia|]. simpl in Hj.
    destruct i as [|i]; simpl in Hi.
    + injection Hi as <-. rewrite Forall_forall in Hx.
      apply Hx. eapply nth_error_In; eassumption.
    + apply (IH i j); [lia | assumption | assumption].
Qed.

Lemma isort_keys_sorted (keys : list Q) (before : nat -> nat -> bool) (l : list nat) :
  (forall x y, decides (fun a b => (key_at keys a <= key_at keys b)%Q) before x y) ->
  Sorted (fun a b => (key_at keys a <= key_at keys b)%Q) (isort before l).
Proof.
  intros Hd. apply StronglySorted_Sorted. apply isort_sorted.
  - intros a b c. apply Qle_trans.
  - clear -Hd. induction l as [|x l IH]; constructor; [exact IH|].
    apply Forall_forall. intros y _. apply Hd.
Qed.

Lemma argsort_stable_contract : argsort_contract argsort_stable.
Proof.
  intros keys. split.
  - apply isort_perm.
  - apply isort_keys_sorted. intros x y. unfold decides.
    destruct (Qle_bool (key_at keys x) (key_at keys y)) eqn:E.
    + now apply Qle_bool_iff.
    + apply Qlt_le_weak, Qltb_lt. unfold Qltb. now rewrite E.
Qed.

Lemma argsort_unstable_contract : argsort_contract argsort_unstable.
Proof.
  intros keys. split.
  - apply isort_perm.
  - apply isort_keys_sorted. intros x y. unfold decides.
    destruct (Qltb (key_at keys x) (key_at keys y)) eqn:E.
    + apply Qlt_le_weak. now apply Qltb_lt.
    + now apply Qltb_ge.
Qed.

Lemma key_then_index_trans (keys : list Q) (a b c : nat) :
  key_then_index keys a b -> key_then_index keys b c -> key_then_index keys a c.
Proof.
  unfold key_then_index. intros [Hab|[Hab Hidx]] [Hbc|[Hbc Hidx']].
  - left. eapply Qlt_trans; eassumption.
  - left. rewrite <- Hbc. exact Hab.
  - left. rewrite Hab. exact Hbc.
  - right. split; [rewrite Hab; exact Hbc | lia].
Qed.

Lemma argsort_stable_is_stable : argsort_is_stable argsort_stable.
Proof.
  intros keys i j a b Hij Hi Hj Heq.
  assert (Hs : StronglySorted (key_then_index keys) (argsort_stable keys)).
  { apply isort_sorted.
    - apply key_then_index_trans.
    - apply StronglySorted_seq. intros x y Hxy. unfold decides, key_then_index.
      destruct (Qle_bool (key_at keys x) (key_at keys y)) eqn:E.
      + apply Qle_bool_iff, Qle_lteq in E. destruct E as [E|E]; [now left|].
        right. now split.
      + left. apply Qltb_lt. unfold Qltb. now rewrite E. }
  destruct (StronglySorted_nth _ _ Hs i j a b Hij Hi Hj) as [Hlt|[_ Hidx]].
  - rewrite Heq in Hlt. exfalso. exact (Qlt_irrefl _ Hlt).
  - exact Hidx.
Qed.

Lemma key_at_negated (w : list Q) (a : nat) :
  key_at (map Qopp w) a = Qopp (weight_at w a).
Proof.
  unfold key_at, weight_at. change 0%Q with (Qopp 0) at 1. apply map_nth.
Qed.

(** Whatever sort meets the contract, the rank order lists the ids by
    descending weight, and so does every prefix of it. *)
Lemma ordered_segments_descending argsort (w : list Q) :
  argsort_contract argsort -> descending w (ordered_segments argsort w).
Proof.
  intros Hc. destruct (Hc (map Qopp w)) as [_ Hsorted].
  fold (ordered_segments argsort w) in Hsorted.
  apply Sorted_StronglySorted in Hsorted; [|intros a b c; apply Qle_trans].
  intros i j a b Hij Hi Hj.
  pose proof (StronglySorted_nth _ _ Hsorted i j a b Hij Hi Hj) as Hle.
  cbv beta in Hle. rewrite !key_at_negated in Hle.
  apply Qopp_le_compat in Hle. rewrite !Qopp_involutive in Hle. exact Hle.
Qed.



(** A stable sort of the negated weights breaks ties by ascending id. *)
Lemma stable_ties_ascending argsort (w : list Q) :
  argsort_is_stable argsort -> ties_ascending w (ordered_segments argsort w).
Proof.
  intros Hstable i j a b Hij Hi Hj Heq.
  apply (Hstable (map Qopp w) i j a b Hij Hi Hj).
  rewrite !key_at_negated, Heq. reflexivity.
Qed.

(** C6, as the code has it.  The rank order is a permutation of the segment
    ids that lists them by descending weight.  Two ids of equal weight come
    in ascending id order when the sort behind [np.argsort] is stable; the
    default sort of [np.argsort], which line 84 runs, is not bound to be. *)
Theorem rank_order_descending argsort (w : list Q) :
  argsort_contract argsort ->
  Permutation (ordered_segments argsort w) (seq 0 (length w)) /\
  descending w (ordered_segments argsort w) /\
  (argsort_is_stable argsort -> ties_ascending w (ordered_segments argsort w)).
Proof.
  intros Hc. destruct (Hc (map Qopp w)) as [Hperm Hsorted].
  unfold ordered_segments. split; [|split].
  - rewrite length_map in Hperm. exact Hperm.
  - apply Sorted_StronglySorted in Hsorted.
    + intros i j a b Hij Hi Hj.
      pose proof (StronglySorted_nth _ _ Hsorted i j a b Hij Hi Hj) as Hle.
      cbv beta in Hle. rewrite !key_at_negated in Hle.
      apply Qopp_le_compat in Hle. rewrite !Qopp_involutive in Hle. exact Hle.
    + intros a b c. apply Qle_trans.
  - apply stable_ties_ascending.
Qed.

Lemma rank_order_descending_witness :
  Permutation (ordered_segments argsort_stable [1#1; 1#1; 3#1]%Q) (seq 0 3) /\
  descending [1#1; 1#1; 3#1]%Q (ordered_segments argsort_stable [1#1; 1#1; 3#1]%Q) /\
  (argsort_is_stable argsort_stable ->
   ties_ascending [1#1; 1#1; 3#1]%Q
     (ordered_segments argsort_stable [1#1; 1#1; 3#1]%Q)).
Proof.
  exact (rank_order_descending argsort_stable [1#1; 1#1; 3#1]%Q
           argsort_stable_contract).
Defined.

(** With [kind="stable"] the ties do come in ascending id order. *)
Lemma stable_rank_order_ties (w : list Q) :
  ties_ascending w (ordered_segments argsort_stable w).
Proof.
  apply stable_ties_ascending, argsort_stable_is_stable.
Qed.

(** C6, as stated, fails at the weights [0, 0, 2, 2]: the rank order there is
    [3, 2, 1, 0], by descending weight, with the two ids of weight 2 and the
    two ids of weight 0 each in descending id order.  The order is one that
    the contract of [np.argsort] admits, and the one that the default sort
    of NumPy returns for these weights. *)
Lemma ties_not_ascending_without_stability :
  argsort_contract argsort_unstable /\
  ordered_segments argsort_unstable [0#1; 0#1; 2#1; 2#1]%Q = [3; 2; 1; 0] /\
  descending [0#1; 0#1; 2#1; 2#1]%Q
    (ordered_segments argsort_unstable [0#1; 0#1; 2#1; 2#1]%Q) /\
  ~ ties_ascending [0#1; 0#1; 2#1; 2#1]%Q
      (ordered_segments argsort_unstable [0#1; 0#1; 2#1; 2#1]%Q).
Proof.
  split; [apply argsort_unstable_contract | split; [reflexivity | split]].
  - apply ordered_segments_descending, argsort_unstable_contract.
  - intros H.
    specialize (H 0 1 3 2 (Nat.lt_0_1) eq_refl eq_refl (Qeq_refl _)). lia.
Qed.

(** ** Count-driven selection, in rank order *)





(** ** The off-by-one of the prefix arithmetic, on concrete inputs *)

(** C4.  Two segments of one cell each, with contiguous ids and the weights
    2.0 and 1.0, and [coverage=1.0]: the scan breaks at [i = 2], line 93
    makes that a count of 0, and the call returns the one id 0.  Segment 1
    is in the mask and not in the selection. *)
Theorem full_coverage_drops_last_segment :
  wf_mask two_cells /\ contiguous_ids [2#1; 1#1]%Q two_cells /\
  select_segments argsort_stable 2 [2#1; 1#1]%Q two_cells (by_coverage 1)
    = Some (inr [0]) /\
  In 1 (labels two_cells) /\ ~ In 1 [0].
Proof.
  split; [reflexivity|]. split.
  - split; simpl.
    + intros l [<-|[<-|[]]]; lia.
    + intros [|[|i]] Hi; [now left | now right; left | lia].
  - split; [reflexivity|]. split; [now right; left|].
    intros [H|[]]. discriminate.
Qed.

(** C5.  The same image with [coverage=0.0]: the scan breaks at [i = 0],
    the count is clamped to 0, and line 102 selects one id, which is more
    than [min_num_of_segments]. *)
Theorem zero_coverage_selects_one_segment :
  select_segments argsort_stable 2 [2#1; 1#1]%Q two_cells (by_coverage 0)
    = Some (inr [0]) /\
  (min_num_of_segments (by_coverage 0) < Z.of_nat (length [0]))%Z.
Proof.
  split; [reflexivity | simpl; lia].
Qed.

Lemma isin_sum_nil (m : mask) : isin_sum m [] = 0.
Proof.
  unfold isin_sum. induction (labels m) as [|l ls IH]; [reflexivity | exact IH].
Qed.

(** For every image with at least one cell, [coverage=0.0] returns the
    first id of the rank order. *)
Lemma select_zero_coverage argsort (n : nat) (w : list Q) (m : mask) :
  wf_mask m -> labels m <> [] ->
  select_segments argsort (S n) w m (by_coverage 0)
  = Some (inr (firstn 1 (ordered_segments argsort w))).
Proof.
  intros Hwf Hne. destruct (np_max_nonempty m Hne) as [x Hx].
  rewrite (select_segments_by_coverage argsort n w m 0 x Hwf Hx).
  assert (Ha : area m <> 0).
  { unfold wf_mask in Hwf. unfold area. rewrite <- Hwf.
    destruct (labels m); [contradiction | discriminate]. }
  assert (Hscan : scan_coverage argsort w m (clamp_coverage 0 0 1)
                    (Z.of_nat x + 1) = (-2)%Z).
  { unfold scan_coverage.
    replace (Z.to_nat (Z.of_nat x + 1 + 1)) with (S (S x)) by lia.
    cbn [seq find]. unfold reaches at 1. cbn [firstn].
    rewrite (covered_fraction_defined m [] Ha), isin_sum_nil. reflexivity. }
  rewrite Hscan. unfold clamp_count, candidate.
  replace (Z.max (Z.min (-2) (Z.of_nat x + 1)) 0 + 1)%Z with 1%Z by lia.
  reflexivity.
Qed.

Lemma fold_left_max_ge (xs : list nat) (x : nat) :
  x <= fold_left Nat.max xs x /\
  forall y, In y xs -> y <= fold_left Nat.max xs x.
Proof.
  revert x. induction xs as [|z xs IH]; intros x; simpl.
  - split; [lia | contradiction].
  - destruct (IH (Nat.max x z)) as [H1 H2]. split; [lia|].
    intros y [->|Hy]; [lia | now apply H2].
Qed.

Lemma fold_left_max_in (xs : list nat) (x : nat) :
  fold_left Nat.max xs x = x \/ In (fold_left Nat.max xs x) xs.
Proof.
  revert x. induction xs as [|z xs IH]; intros x; simpl; [now left|].
  destruct (IH (Nat.max x z)) as [H|H]; [|now right; right].
  rewrite H. destruct (Nat.max_spec x z) as [[_ ->]|[_ ->]]; [right|]; now left.
Qed.

(** With contiguous ids the derived maximum is the number of weights. *)
Lemma np_max_contiguous (w : list Q) (m : mask) :
  contiguous_ids w m -> 1 <= length w ->
  exists x, np_max m = inr x /\ S x = length w.
Proof.
  intros [Hlt Hin] Hn. unfold np_max.
  pose proof (Hin 0 Hn) as H0.
  destruct (labels m) as [|l ls]; [contradiction|].
  eexists. split; [reflexivity|].
  destruct (fold_left_max_ge ls l) as [Hl Hls].
  assert (Hupper : fold_left Nat.max ls l < length w).
  { destruct (fold_left_max_in ls l) as [->|H]; apply Hlt; [now left | now right]. }
  assert (Hlower : length w - 1 <= fold_left Nat.max ls l).
  { destruct (Hin (length w - 1)) as [<-|H]; [lia | exact Hl | now apply Hls]. }
  lia.
Qed.

Lemma filter_length_all {A : Type} (p : A -> bool) (l : list A) :
  (forall x, In x l -> p x = true) -> length (filter p l) = length l.
Proof.
  induction l as [|x l IH]; simpl; intros H; [reflexivity|].
  rewrite (H x (or_introl eq_refl)). simpl. f_equal. apply IH.
  intros y Hy. apply H. now right.
Qed.

Lemma filter_length_lt {A : Type} (p : A -> bool) (l : list A) (x : A) :
  In x l -> p x = false -> length (filter p l) < length l.
Proof.
  induction l as [|y l IH]; simpl; [contradiction|].
  intros [->|Hin] Hp.
  - rewrite Hp. pose proof (filter_length_le p l). lia.
  - specialize (IH Hin Hp). destruct (p y); simpl; lia.
Qed.

(** A proper prefix of the rank order misses an id, the next one. *)
Lemma prefix_misses_next (order : list nat) (i : nat) :
  NoDup order -> i < length order ->
  exists a, nth_error order i = Some a /\ ~ In a (firstn i order).
Proof.
  intros Hnd Hi.
  destruct (nth_error order i) as [a|] eqn:Ea;
    [|apply nth_error_None in Ea; lia].
  exists a. split; [reflexivity|]. intros Hin.
  apply In_nth_error in Hin as [j Hj].
  assert (Hjlt : j < i).
  { assert (H : nth_error (firstn i order) j <> None) by congruence.
    apply nth_error_Some in H. rewrite length_firstn in H. lia. }
  rewrite nth_error_firstn in Hj.
  destruct (Nat.ltb_spec j i) as [_|]; [|lia].
  rewrite NoDup_nth_error in Hnd.
  assert (j = i); [|lia].
  apply Hnd; [|congruence].
  apply nth_error_Some. congruence.
Qed.

(** For contiguous ids and at least two segments, [coverage=1.0] returns
    the rank order without its last id. *)
Lemma select_full_coverage argsort (n : nat) (w : list Q) (m : mask) :
  argsort_contract argsort -> wf_mask m -> contiguous_ids w m ->
  2 <= length w ->
  select_segments argsort (S n) w m (by_coverage 1)
  = Some (inr (firstn (length w - 1) (ordered_segments argsort w))).
Proof.
  intros Hc Hwf Hcont Hn.
  destruct (np_max_contiguous w m Hcont) as [x [Hx Hlen]]; [lia|].
  rewrite (select_segments_by_coverage argsort n w m 1 x Hwf Hx).
  assert (Hperm : Permutation (ordered_segments argsort w) (seq 0 (length w))).
  { destruct (Hc (map Qopp w)) as [H _]. now rewrite length_map in H. }
  assert (Hnd : NoDup (ordered_segments argsort w)).
  { eapply Permutation_NoDup; [apply Permutation_sym, Hperm | apply seq_NoDup]. }
  assert (Hlo : length (ordered_segments argsort w) = length w).
  { rewrite (Permutation_length Hperm). apply length_seq. }
  assert (Ha : area m <> 0).
  { destruct Hcont as [_ Hin]. unfold wf_mask in Hwf. unfold area. rewrite <- Hwf.
    specialize (Hin 0 ltac:(lia)). destruct (labels m); [contradiction | discriminate]. }
  assert (Hreach : forall i, reaches argsort w m (clamp_coverage 1 0 1) i = true <->
                             area m <= isin_sum m (firstn i (ordered_segments argsort w))).
  { intros i. unfold reaches. rewrite (covered_fraction_defined m _ Ha).
    change (clamp_coverage 1 0 1) with 1%Q. simpl.
    rewrite Qle_bool_iff. unfold Qle. simpl. rewrite (Zpos_of_nat _ Ha). lia. }
  assert (Hfind : find (reaches argsort w m (clamp_coverage 1 0 1))
                       (seq 0 (Z.to_nat (Z.of_nat x + 1 + 1))) = Some (length w)).
  { destruct (find_seq_some (reaches argsort w m (clamp_coverage 1 0 1)) 0
                (Z.to_nat (Z.of_nat x + 1 + 1)) (length w)) as [i [Hi Hle]];
      [lia | |].
    - apply Hreach. unfold wf_mask in Hwf. unfold area. rewrite <- Hwf.
      unfold isin_sum. rewrite filter_length_all; [lia|].
      intros l Hl. apply isin_In.
      rewrite firstn_all2 by lia.
      apply (Permutation_in _ (Permutation_sym Hperm)), in_seq.
      destruct Hcont as [Hlt _]. specialize (Hlt l Hl). lia.
    - rewrite Hi. f_equal.
      destruct (Nat.eq_dec i (length w)) as [|Hne]; [assumption|]. exfalso.
      apply find_seq_first in Hi as [Hp _]. apply Hreach in Hp.
      destruct (prefix_misses_next (ordered_segments argsort w) i Hnd) as [a [Hnth Hmiss]];
        [lia|].
      assert (Hin : In a (labels m)).
      { destruct Hcont as [_ Hin]. apply Hin.
        apply nth_error_In in Hnth.
        apply (Permutation_in _ Hperm), in_seq in Hnth. lia. }
      assert (Hlt : isin_sum m (firstn i (ordered_segments argsort w)) < area m).
      { unfold isin_sum, area. unfold wf_mask in Hwf. rewrite <- Hwf.
        apply (filter_length_lt _ _ a Hin).
        destruct (isin _ a) eqn:E; [|reflexivity].
        apply isin_In in E. contradiction. }
      lia. }
  unfold scan_coverage. rewrite Hfind. unfold clamp_count, candidate.
  rewrite slice_to_nonneg by lia. do 3 f_equal. lia.
Qed.

(** ** Opacity shaping: what is written and where *)

Lemma update_last {A : Type} (s : list A) (o o' : A) :
  update (s ++ [o]) (length s) o' = s ++ [o'].
Proof.
  induction s as [|x s IH]; simpl; [reflexivity | now rewrite IH].
Qed.

Lemma nth_error_last {A : Type} (s : list A) (o : A) :
  nth_error (s ++ [o]) (length s) = Some o.
Proof.
  rewrite nth_error_app2 by lia. now rewrite Nat.sub_diag.
Qed.

Lemma masked_set_alpha_length (bm : list bool) (ps : list pixel) (v : Z) :
  length (masked_set_alpha bm ps v) = length ps.
Proof.
  revert ps. induction bm as [|b bm IH]; intros [|p ps]; simpl; auto.
Qed.

Lemma masked_set_alpha_nth (bm : list bool) (ps : list pixel) (v : Z) (i : nat) :
  nth_error (masked_set_alpha bm ps v) i =
  match nth_error ps i with
  | Some p => Some (if nth i bm false then with_alpha p v else p)
  | None => None
  end.
Proof.
  revert ps i. induction bm as [|b bm IH]; intros ps i.
  - replace (masked_set_alpha [] ps v) with ps by (destruct ps; reflexivity).
    destruct (nth_error ps i); [|reflexivity]. now destruct i.
  - destruct ps as [|p ps]; [now destruct i|].
    destruct i as [|i]; simpl; [reflexivity | apply IH].
Qed.

Lemma label_is_nth (m : mask) (segment_id : Z) (i : nat) :
  nth i (label_is m segment_id) false =
  match nth_error (labels m) i with
  | Some l => (Z.of_nat l =? segment_id)%Z
  | None => false
  end.
Proof.
  unfold label_is. revert i.
  induction (labels m) as [|l ls IH]; intros [|i]; simpl; auto.
Qed.

(** The loop writes to the object at [new_overlay] only, and there only to
    the alpha channel of the cells whose label is being coloured. *)
Lemma color_loop_frame (m : mask) (new_opacity : list Q) (segs : list Z) :
  forall (s : store) (o1 : overlay) (s2 : store),
  color_loop (s ++ [o1]) (length s) m new_opacity segs = inr s2 ->
  exists o2, s2 = s ++ [o2] /\
    oshape0 o2 = oshape0 o1 /\ oshape1 o2 = oshape1 o1 /\
    length (pixels o2) = length (pixels o1) /\
    forall i p1 p2,
      nth_error (pixels o1) i = Some p1 -> nth_error (pixels o2) i = Some p2 ->
      ch0 p2 = ch0 p1 /\ ch1 p2 = ch1 p1 /\ ch2 p2 = ch2 p1 /\
      alpha_after new_opacity segs (nth_error (labels m) i) (ch3 p1) (ch3 p2).
Proof.
  induction segs as [|segment_id rest IH]; intros s o1 s2; simpl.
  - intros H. injection H as <-. exists o1.
    do 4 (split; [reflexivity|]).
    intros i p1 p2 H1 H2. rewrite H1 in H2. injection H2 as <-.
    do 3 (split; [reflexivity|]).
    unfold alpha_after. destruct (nth_error (labels m) i); reflexivity.
  - destruct (py_index new_opacity segment_id) as [e|v] eqn:Ev; [discriminate|].
    unfold setitem_alpha. rewrite nth_error_last.
    destruct ((oshape0 o1 =? shape0 m) && (oshape1 o1 =? shape1 m)); [|discriminate].
    rewrite update_last. intros H.
    apply IH in H as [o2 [-> [Hs0 [Hs1 [Hlen Hpix]]]]].
    simpl in Hs0, Hs1, Hlen. rewrite masked_set_alpha_length in Hlen.
    exists o2. do 4 (split; [assumption || reflexivity|]).
    intros i p1 p2 H1 H2.
    set (p1' := if nth i (label_is m segment_id) false
                then with_alpha p1 (float_to_int v) else p1).
    assert (H1p : nth_error (masked_set_alpha (label_is m segment_id)
                               (pixels o1) (float_to_int v)) i = Some p1')
      by (rewrite masked_set_alpha_nth, H1; reflexivity).
    destruct (Hpix i p1' p2 H1p H2) as [H0 [H1' [H2' Ha]]].
    assert (Hc : ch0 p1' = ch0 p1 /\ ch1 p1' = ch1 p1 /\ ch2 p1' = ch2 p1)
      by (unfold p1'; destruct (nth i (label_is m segment_id) false); simpl; auto).
    destruct Hc as [Hc0 [Hc1 Hc2]].
    split; [congruence|]. split; [congruence|]. split; [congruence|].
    unfold alpha_after in *. unfold p1' in Ha. rewrite label_is_nth in Ha.
    destruct (nth_error (labels m) i) as [l|]; [|exact Ha].
    cbn [existsb].
    destruct (Z.eqb_spec (Z.of_nat l) segment_id) as [Heq|Hne]; cbn [orb].
    + destruct (existsb (Z.eqb (Z.of_nat l)) rest); [exact Ha|].
      exists v. rewrite Heq. split; [exact Ev | exact Ha].
    + exact Ha.
Qed.

(** The loop completes when every id indexes [new_opacity] and the mask has
    the shape of the overlay. *)
Lemma color_loop_completes (m : mask) (new_opacity : list Q) (segs : list Z) :
  Forall (fun i => (- Z.of_nat (length new_opacity) <= i
                    < Z.of_nat (length new_opacity))%Z) segs ->
  forall (s : store) (o1 : overlay),
  oshape0 o1 = shape0 m -> oshape1 o1 = shape1 m ->
  exists s2, color_loop (s ++ [o1]) (length s) m new_opacity segs = inr s2.
Proof.
  induction 1 as [|segment_id rest Hid Hrest IH]; intros s o1 H0 H1; simpl.
  - eauto.
  - assert (Hv : exists v, py_index new_opacity segment_id = inr v).
    { unfold py_index.
      set (j := if (segment_id <? 0)%Z
                then (Z.of_nat (length new_opacity) + segment_id)%Z else segment_id).
      assert (Hj : (0 <= j < Z.of_nat (length new_opacity))%Z)
        by (unfold j; destruct (Z.ltb_spec segment_id 0); lia).
      destruct (Z.ltb_spec j 0); [lia|].
      destruct (nth_error new_opacity (Z.to_nat j)) as [v|] eqn:E; [eauto|].
      apply nth_error_None in E. lia. }
    destruct Hv as [v ->].
    unfold setitem_alpha. rewrite nth_error_last, H0, H1, !Nat.eqb_refl. simpl.
    rewrite update_last. apply IH; reflexivity.
Qed.

Lemma opacity_length norm (w : list Q) (reference : Q) :
  length (opacity (rescale norm w) reference) = length w.
Proof. unfold opacity, rescale. now rewrite !length_map. Qed.

(** Whatever [scale_opacity] returns is a new object; the objects of the
    caller's store are as they were, and the new one differs from the input
    overlay in the alpha of the coloured cells only. *)
Lemma scale_opacity_result_frame norm (s : store) (ov : nat) (w : list Q)
  (m : mask) (segs : list Z) (rel : pyvalue) (s' : store) (r : nat) :
  scale_opacity norm s ov w m segs rel = (s', inr r) ->
  exists o o' reference,
    nth_error s ov = Some o /\
    reference_of (rescale norm w) rel = inr reference /\
    r = length s /\ s' = s ++ [o'] /\
    oshape0 o' = oshape0 o /\ oshape1 o' = oshape1 o /\
    length (pixels o') = length (pixels o) /\
    forall i p p',
      nth_error (pixels o) i = Some p -> nth_error (pixels o') i = Some p' ->
      ch0 p' = ch0 p /\ ch1 p' = ch1 p /\ ch2 p' = ch2 p /\
      alpha_after (opacity (rescale norm w) reference) segs
                  (nth_error (labels m) i) (ch3 p) (ch3 p').
Proof.
  unfold scale_opacity, np_copy.
  destruct (reference_of (rescale norm w) rel) as [e|reference]; [discriminate|].
  destruct (nth_error s ov) as [o|] eqn:Eo; [|discriminate].
  destruct (color_loop (s ++ [o]) (length s) m _ segs) as [e|s2] eqn:El;
    [discriminate|].
  intros H. injection H as <- <-.
  apply color_loop_frame in El as [o' [-> Hframe]].
  exists o, o', reference. repeat (split; [reflexivity|]). exact Hframe.
Qed.

(** C9.  Given an overlay of the shape of the mask, a usable [relative_to]
    and ids that index the weights, [scale_opacity] returns a reference to
    an object that the store did not hold before.  Every object the store
    held, the input overlay among them, is unchanged.  The new object has the
    shape of the input and equals it in every cell and channel, but for the
    alpha channel of the cells whose label is in [segments_to_color], which
    holds the opacity computed from the rescaled weight of the label. *)
Theorem scale_opacity_frame norm (s : store) (ov : nat) (o : overlay)
  (w : list Q) (m : mask) (segs : list Z) (rel : pyvalue) (reference : Q) :
  nth_error s ov = Some o ->
  reference_of (rescale norm w) rel = inr reference ->
  Forall (fun i => (- Z.of_nat (length w) <= i < Z.of_nat (length w))%Z) segs ->
  oshape0 o = shape0 m -> oshape1 o = shape1 m ->
  exists o',
    scale_opacity norm s ov w m segs rel = (s ++ [o'], inr (length s)) /\
    nth_error s (length s) = None /\
    nth_error (s ++ [o']) (length s) = Some o' /\
    (forall q, q < length s -> nth_error (s ++ [o']) q = nth_error s q) /\
    nth_error (s ++ [o']) ov = Some o /\
    oshape0 o' = oshape0 o /\ oshape1 o' = oshape1 o /\
    length (pixels o') = length (pixels o) /\
    forall i p p',
      nth_error (pixels o) i = Some p -> nth_error (pixels o') i = Some p' ->
      ch0 p' = ch0 p /\ ch1 p' = ch1 p /\ ch2 p' = ch2 p /\
      alpha_after (opacity (rescale norm w) reference) segs
                  (nth_error (labels m) i) (ch3 p) (ch3 p').
Proof.
  intros Ho Href Hids H0 H1.
  assert (Hov : ov < length s) by (apply nth_error_Some; congruence).
  destruct (color_loop_completes m (opacity (rescale norm w) reference) segs)
    with (s := s) (o1 := o) as [s2 Hloop]; try assumption.
  { now rewrite opacity_length. }
  assert (Hcall : scale_opacity norm s ov w m segs rel = (s2, inr (length s))).
  { unfold scale_opacity, np_copy. now rewrite Href, Ho, Hloop. }
  destruct (scale_opacity_result_frame _ _ _ _ _ _ _ _ _ Hcall)
    as [o0 [o' [ref0 [Ho0 [Href0 [_ [-> Hframe]]]]]]].
  rewrite Ho in Ho0. injection Ho0 as <-.
  rewrite Href in Href0. injection Href0 as <-.
  exists o'. split; [exact Hcall|].
  split; [apply nth_error_None; lia|].
  split; [apply nth_error_last|].
  split; [intros q Hq; now apply nth_error_app1|].
  split; [rewrite nth_error_app1 by exact Hov; exact Ho|].
  exact Hframe.
Qed.

Lemma scale_opacity_frame_witness :
  exists o',
    scale_opacity l2_norm [two_pixels] 0 [3#1; 4#1]%Q two_cells [1%Z] (PyStr "max")
      = ([two_pixels] ++ [o'], inr 1) /\
    nth_error [two_pixels] 1 = None /\
    nth_error ([two_pixels] ++ [o']) 1 = Some o' /\
    (forall q, q < 1 -> nth_error ([two_pixels] ++ [o']) q = nth_error [two_pixels] q) /\
    nth_error ([two_pixels] ++ [o']) 0 = Some two_pixels /\
    oshape0 o' = 1 /\ oshape1 o' = 2 /\
    length (pixels o') = 2 /\
    forall i p p',
      nth_error (pixels two_pixels) i = Some p -> nth_error (pixels o') i = Some p' ->
      ch0 p' = ch0 p /\ ch1 p' = ch1 p /\ ch2 p' = ch2 p /\
      alpha_after (opacity (rescale l2_norm [3#1; 4#1]%Q) (4#5)) [1%Z]
                  (nth_error (labels two_cells) i) (ch3 p) (ch3 p').
Proof.
  apply (scale_opacity_frame l2_norm [two_pixels] 0 two_pixels [3#1; 4#1]%Q
           two_cells [1%Z] (PyStr "max") (4#5)%Q); try reflexivity.
  constructor; [simpl; lia | constructor].
Defined.

(** The input overlay keeps its alpha of 128 in both cells; the returned
    object holds 255 in the cell of segment 1. *)
Example scale_opacity_copies :
  scale_opacity l2_norm [two_pixels] 0 [3#1; 4#1]%Q two_cells [1%Z] (PyStr "max")
  = ([ two_pixels;
       {| oshape0 := 1; oshape1 := 2;
          pixels := [ {| ch0 := 0; ch1 := 255; ch2 := 0; ch3 := 128 |};
                      {| ch0 := 0; ch1 := 255; ch2 := 0; ch3 := 255 |} ] |} ],
     inr 1).
Proof. reflexivity. Qed.

(** ** The check of [relative_to] *)

Lemma color_loop_error (s : store) (r : nat) (m : mask) (new_opacity : list Q)
  (segs : list Z) :
  color_loop s r m new_opacity segs <> inl InvalidRelativeTo.
Proof.
  revert s. induction segs as [|segment_id rest IH]; intros s; simpl.
  - discriminate.
  - unfold py_index, setitem_alpha.
    destruct (_ <? 0)%Z; [discriminate|].
    destruct (nth_error new_opacity _); [|discriminate].
    destruct (nth_error s r); [|discriminate].
    destruct (_ && _); [apply IH | discriminate].
Qed.

Lemma clamp_unit (r : Q) :
  (0 <= fmax 0 (fmin r 1))%Q /\ (fmax 0 (fmin r 1) <= 1)%Q /\
  ((0 <= r)%Q -> (r <= 1)%Q -> (fmax 0 (fmin r 1) == r)%Q).
Proof.
  split; [apply fmax_spec|]. split.
  - unfold fmax. destruct (Qltb 0 (fmin r 1)); [apply fmin_spec | discriminate].
  - intros H0 H1. unfold fmax, fmin.
    destruct (Qltb 1 r) eqn:E1.
    + apply Qltb_lt in E1. exfalso. exact (Qlt_not_le _ _ E1 H1).
    + destruct (Qltb 0 r) eqn:E0; [reflexivity|].
      apply Qltb_ge in E0. apply Qle_antisym; assumption.
Qed.

(** C10, as the code has it.  [scale_opacity] raises the error of line 198
    exactly when [relative_to] is neither ["max"] nor a [float]: an [int] is
    rejected with the rest.  For a float, the reference is the value clamped
    into the unit interval, the value itself when it lies there, and the
    check raises nothing. *)
Theorem relative_to_rejected_unless_max_or_float norm (s : store) (ov : nat)
  (w : list Q) (m : mask) (segs : list Z) (rel : pyvalue) :
  (snd (scale_opacity norm s ov w m segs rel) = inl InvalidRelativeTo <->
   is_max rel = false /\ is_float rel = false) /\
  (forall r, rel = PyFloat r ->
     reference_of (rescale norm w) rel = inr (fmax 0 (fmin r 1)) /\
     (0 <= fmax 0 (fmin r 1))%Q /\ (fmax 0 (fmin r 1) <= 1)%Q /\
     ((0 <= r)%Q -> (r <= 1)%Q -> (fmax 0 (fmin r 1) == r)%Q)).
Proof.
  split.
  - unfold scale_opacity, reference_of, np_copy.
    assert (Hloop : forall s1 r1 nop,
      snd (match color_loop s1 r1 m nop segs with
           | inl e => (s1, inl e)
           | inr s2 => (s2, inr r1)
           end) <> inl InvalidRelativeTo).
    { intros s1 r1 nop. pose proof (color_loop_error s1 r1 m nop segs) as H.
      destruct (color_loop s1 r1 m nop segs); simpl; congruence. }
    assert (Hcopy : forall nop,
      snd (match (match nth_error s ov with
                  | Some o => inr (s ++ [o], length s)
                  | None => inl UnboundReference
                  end) with
           | inl e => (s, inl e)
           | inr (s1, new_overlay) =>
             match color_loop s1 new_overlay m nop segs with
             | inl e => (s1, inl e)
             | inr s2 => (s2, inr new_overlay)
             end
           end) <> inl InvalidRelativeTo).
    { intros nop. destruct (nth_error s ov); [apply Hloop | discriminate]. }
    destruct (is_max rel) eqn:Emax.
    + split; [|intros [H _]; discriminate].
      intros H. exfalso. revert H.
      unfold np_amax. destruct (rescale norm w); [discriminate | apply Hcopy].
    + destruct rel as [str|r|z|]; simpl;
        try (split; [intros _; now split | reflexivity]).
      split; [|intros [_ H]; discriminate].
      intros H. exfalso. revert H. apply Hcopy.
  - intros r ->. split; [reflexivity | apply clamp_unit].
Qed.

(** C10, as stated, fails: the integer 1 is a number, and [relative_to=1]
    raises the error of line 198. *)
Lemma int_relative_to_rejected :
  is_number (PyInt 1) = true /\
  scale_opacity l2_norm [two_pixels] 0 [3#1; 4#1]%Q two_cells [1%Z] (PyInt 1)
  = ([two_pixels], inl InvalidRelativeTo).
Proof. split; reflexivity. Qed.

(** * Further properties of the selection *)


Lemma select_segments_raises_iff_witness :
  exists maxn, effective_max two_cells (capped_at_half 1 5) = inr maxn /\
    ((exists e, select_segments argsort_stable 2 [2#1; 1#1]%Q two_cells
                  (capped_at_half 1 5) = Some (inl e)) <->
     (coverage (capped_at_half 1 5) = None /\
      num_of_segments (capped_at_half 1 5) = None) \/
     (coverage (capped_at_half 1 5) <> None /\
      num_of_segments (capped_at_half 1 5) <> None) \/
     (max_coverage (capped_at_half 1 5) <= min_coverage (capped_at_half 1 5))%Q \/
     (maxn <= min_num_of_segments (capped_at_half 1 5))%Z) /\
    (forall e, select_segments argsort_stable 2 [2#1; 1#1]%Q two_cells
                 (capped_at_half 1 5) = Some (inl e) ->
               is_config_error e = true).
Proof.
  apply (select_segments_raises_iff argsort_stable 0 [2#1; 1#1]%Q two_cells
           (capped_at_half 1 5)); [reflexivity | discriminate].
Defined.

(** The selection of a coverage request with the default bounds, from the
    length [i] of the shortest prefix that reaches the clamped target. *)
Lemma select_by_coverage_scan argsort (n : nat) (w : list Q) (m : mask)
  (c : Q) (x i : nat) :
  wf_mask m -> np_max m = inr x ->
  reaches argsort w m (clamp_coverage c 0 1) i = true ->
  (forall j, j < i -> reaches argsort w m (clamp_coverage c 0 1) j = false) ->
  i <= S x ->
  select_segments argsort (S n) w m (by_coverage c)
  = Some (inr (firstn (Nat.max (i - 1) 1) (ordered_segments argsort w))).
Proof.
  intros Hwf Hx Hi Hfirst Hle.
  rewrite (select_segments_by_coverage argsort n w m c x Hwf Hx).
  assert (Hfind : find (reaches argsort w m (clamp_coverage c 0 1))
                       (seq 0 (Z.to_nat (Z.of_nat x + 1 + 1))) = Some i).
  { destruct (find_seq_some (reaches argsort w m (clamp_coverage c 0 1)) 0
                (Z.to_nat (Z.of_nat x + 1 + 1)) i) as [i' [Hi' Hle']];
      [lia | exact Hi |].
    rewrite Hi'. f_equal.
    destruct (Nat.eq_dec i' i) as [|Hne]; [assumption|]. exfalso.
    apply find_seq_first in Hi' as [Hp _].
    rewrite Hfirst in Hp by lia. discriminate. }
  unfold scan_coverage. rewrite Hfind. unfold clamp_count, candidate.
  rewrite slice_to_nonneg by lia. do 3 f_equal. lia.
Qed.

Lemma reaches_nothing_selected argsort (w : list Q) (m : mask) :
  area m <> 0 -> reaches argsort w m 0 0 = true.
Proof.
  intros Ha. unfold reaches. cbn [firstn].
  rewrite (covered_fraction_defined m [] Ha), isin_sum_nil. reflexivity.
Qed.

Lemma unreached_below argsort (w : list Q) (m : mask) (c : Q) (j : nat) :
  area m <> 0 -> reaches argsort w m c j = false ->
  exists q, covered_fraction m (firstn j (ordered_segments argsort w)) = Some q /\
            (q < c)%Q.
Proof.
  intros Ha Hj. unfold reaches in Hj.
  rewrite (covered_fraction_defined m _ Ha) in *. eexists. split; [reflexivity|].
  simpl in Hj. apply Qltb_lt. unfold Qltb. now rewrite Hj.
Qed.

(** X3.  With the default bounds, a coverage request returns the prefix of
    the rank order that is one id shorter than the shortest prefix [i] that
    reaches the clamped target, and never fewer than one id; when that
    shortest prefix holds two ids or more, the selection covers strictly less
    than the target. *)
Theorem coverage_request_stops_short argsort (n : nat) (w : list Q) (m : mask)
  (c : Q) (x i : nat) :
  wf_mask m -> np_max m = inr x ->
  reaches argsort w m (clamp_coverage c 0 1) i = true ->
  (forall j, j < i -> reaches argsort w m (clamp_coverage c 0 1) j = false) ->
  i <= S x ->
  select_segments argsort (S n) w m (by_coverage c)
  = Some (inr (firstn (Nat.max (i - 1) 1) (ordered_segments argsort w))) /\
  (2 <= i ->
   exists q,
     covered_fraction m (firstn (Nat.max (i - 1) 1) (ordered_segments argsort w))
       = Some q /\ (q < clamp_coverage c 0 1)%Q).
Proof.
  intros Hwf Hx Hi Hfirst Hle.
  split; [now apply (select_by_coverage_scan argsort n w m c x i)|].
  intros H2. replace (Nat.max (i - 1) 1) with (i - 1) by lia.
  apply unreached_below; [|apply Hfirst; lia].
  unfold reaches in Hi.
  destruct (covered_fraction m (firstn i (ordered_segments argsort w))) eqn:E;
    [|discriminate].
  apply covered_fraction_some in E. tauto.
Qed.

Lemma coverage_request_stops_short_witness :
  select_segments argsort_stable 1 [2#1; 1#1; 3#1]%Q three_cells (by_coverage (1#2))
  = Some (inr (firstn (Nat.max (2 - 1) 1)
                 (ordered_segments argsort_stable [2#1; 1#1; 3#1]%Q))) /\
  (2 <= 2 ->
   exists q,
     covered_fraction three_cells
       (firstn (Nat.max (2 - 1) 1)
          (ordered_segments argsort_stable [2#1; 1#1; 3#1]%Q)) = Some q /\
     (q < clamp_coverage (1#2) 0 1)%Q).
Proof.
  apply (coverage_request_stops_short argsort_stable 0 [2#1; 1#1; 3#1]%Q
           three_cells (1#2)%Q 2 2); try reflexivity; [|lia].
  intros [|[|j]] Hj; [reflexivity | reflexivity | lia].
Defined.

Lemma ordered_segments_length argsort (w : list Q) :
  argsort_contract argsort -> length (ordered_segments argsort w) = length w.
Proof.
  intros Hc. destruct (Hc (map Qopp w)) as [Hperm _].
  unfold ordered_segments. rewrite (Permutation_length Hperm), length_seq.
  apply length_map.
Qed.

(** X4.  A call with [min_num_of_segments >= 0] on at least one weight never
    returns an empty selection: line 102 slices one id more than the count,
    and the recursive call runs with the default minimum 0. *)
Theorem selection_never_empty argsort (fuel : nat) (w : list Q) (m : mask)
  (a : args) (sel : list nat) :
  argsort_contract argsort -> 1 <= length w ->
  (0 <= min_num_of_segments a)%Z ->
  select_segments argsort fuel w m a = Some (inr sel) ->
  1 <= length sel.
Proof.
  intros Hc Hw. revert a.
  induction fuel as [|fuel IH]; intros a Hmin; simpl; [discriminate|].
  destruct (effective_max m a) as [e|maxn]; [discriminate|].
  destruct (check_config a maxn); [discriminate|].
  destruct (fgt _ (max_coverage a)); [apply IH; simpl; lia|].
  destruct (flt _ (min_coverage a)); [apply IH; simpl; lia|].
  intros H. injection H as <-. unfold candidate, clamp_count.
  rewrite slice_to_nonneg by lia.
  rewrite length_firstn, (ordered_segments_length argsort w Hc). lia.
Qed.

Lemma selection_never_empty_witness : 1 <= length [0].
Proof.
  apply (selection_never_empty argsort_stable 2 [2#1; 1#1]%Q two_cells
           (by_coverage 0) [0] argsort_stable_contract);
    [simpl; lia | simpl; lia | reflexivity].
Defined.

Lemma clamp_coverage_unit (c : Q) :
  (clamp_coverage c 0 1 <= 1)%Q /\
  ((clamp_coverage c 0 1 <= c)%Q \/ clamp_coverage c 0 1 = 0%Q).
Proof.
  unfold clamp_coverage, fmax.
  destruct (Qltb (fmin c 1) 0); [split; [discriminate | now right]|].
  split; [apply fmin_spec | left; apply fmin_spec].
Qed.

(** With contiguous ids the whole rank order covers the image. *)
Lemma whole_order_reaches argsort (w : list Q) (m : mask) (c : Q) :
  argsort_contract argsort -> wf_mask m -> contiguous_ids w m ->
  1 <= length w -> (c <= 1)%Q ->
  reaches argsort w m c (length w) = true.
Proof.
  intros Hc Hwf [Hlt Hin] Hn Hle.
  assert (Ha : area m <> 0).
  { unfold wf_mask in Hwf. unfold area. rewrite <- Hwf.
    specialize (Hin 0 Hn). destruct (labels m); [contradiction | discriminate]. }
  unfold reaches. rewrite (covered_fraction_defined m _ Ha). simpl.
  apply Qle_bool_iff. eapply Qle_trans; [exact Hle|].
  unfold Qle. simpl. rewrite (Zpos_of_nat _ Ha).
  unfold isin_sum. rewrite filter_length_all.
  - unfold wf_mask in Hwf. unfold area. rewrite <- Hwf. lia.
  - intros l Hl. apply isin_In.
    rewrite firstn_all2 by (rewrite (ordered_segments_length argsort w Hc); lia).
    destruct (Hc (map Qopp w)) as [Hperm _]. rewrite length_map in Hperm.
    apply (Permutation_in _ (Permutation_sym Hperm)), in_seq.
    specialize (Hlt l Hl). lia.
Qed.

(** A coverage request on contiguous ids returns one id, or a selection that
    covers strictly less than the requested coverage. *)
Lemma select_by_coverage_below argsort (n : nat) (w : list Q) (m : mask)
  (c : Q) (sel : list nat) :
  argsort_contract argsort -> wf_mask m -> contiguous_ids w m ->
  1 <= length w ->
  select_segments argsort (S n) w m (by_coverage c) = Some (inr sel) ->
  length sel <= 1 \/
  exists q, covered_fraction m sel = Some q /\ (q < c)%Q.
Proof.
  intros Hc Hwf Hcont Hn Hsel.
  destruct (np_max_contiguous w m Hcont Hn) as [x [Hx Hlen]].
  destruct (clamp_coverage_unit c) as [Hunit Hbelow].
  pose proof (whole_order_reaches argsort w m _ Hc Hwf Hcont Hn Hunit) as Hall.
  assert (Ha : area m <> 0).
  { unfold reaches in Hall.
    destruct (covered_fraction m (firstn (length w) (ordered_segments argsort w)))
      eqn:E; [|discriminate].
    apply covered_fraction_some in E. tauto. }
  destruct (find_seq_some (reaches argsort w m (clamp_coverage c 0 1)) 0
              (S (length w)) (length w)) as [i [Hfind Hle]]; [lia | exact Hall |].
  apply find_seq_first in Hfind as [Hi [_ Hfirst]].
  assert (Hfirst' : forall j, j < i ->
            reaches argsort w m (clamp_coverage c 0 1) j = false)
    by (intros j Hj; apply Hfirst; lia).
  rewrite (select_by_coverage_scan argsort n w m c x i Hwf Hx Hi Hfirst')
    in Hsel by lia.
  injection Hsel as <-.
  destruct (Nat.le_gt_cases i 1) as [Hsmall|Hbig].
  - left. rewrite length_firstn. lia.
  - right. replace (Nat.max (i - 1) 1) with (i - 1) by lia.
    destruct (unreached_below argsort w m (clamp_coverage c 0 1) (i - 1) Ha)
      as [q [Hq Hlt]];
      [apply Hfirst'; lia|].
    exists q. split; [exact Hq|].
    destruct Hbelow as [Hb|Hzero].
    + eapply Qlt_le_trans; eassumption.
    + exfalso. specialize (Hfirst' 0 ltac:(lia)). rewrite Hzero in Hfirst'.
      rewrite (reaches_nothing_selected argsort w m Ha) in Hfirst'.
      discriminate.
Qed.

Lemma check_config_passes (a : args) (maxn : Z) :
  check_config a maxn = None ->
  (min_coverage a < max_coverage a)%Q /\ (min_num_of_segments a < maxn)%Z.
Proof.
  unfold check_config.
  destruct (coverage a), (num_of_segments a); try discriminate;
    destruct (Qle_bool (max_coverage a) (min_coverage a)) eqn:E; try discriminate;
    destruct (Z.leb_spec maxn (min_num_of_segments a)); try discriminate;
    intros _; (split; [|lia]); apply Qltb_lt; unfold Qltb; now rewrite E.
Qed.

Lemma three_cells_contiguous : contiguous_ids [2#1; 1#1; 3#1]%Q three_cells.
Proof.
  split; simpl.
  - intros l [<-|[<-|[<-|[]]]]; lia.
  - intros [|[|[|i]]] Hi; [now left | now right; left | now right; right; left | lia].
Qed.

(** X5.  On contiguous ids, whatever a call returns covers at most
    [max_coverage], unless it is a single id: the first id of the rank order
    is returned even when it alone covers more. *)
Theorem selection_within_max_coverage argsort (n : nat) (w : list Q) (m : mask)
  (a : args) (sel : list nat) :
  argsort_contract argsort -> wf_mask m -> contiguous_ids w m ->
  1 <= length w ->
  select_segments argsort (S (S n)) w m a = Some (inr sel) ->
  length sel <= 1 \/
  exists q, covered_fraction m sel = Some q /\ (q <= max_coverage a)%Q.
Proof.
  intros Hc Hwf Hcont Hn. cbn [select_segments].
  destruct (effective_max m a) as [e|maxn]; [discriminate|].
  destruct (check_config a maxn) eqn:Ecfg; [discriminate|].
  apply check_config_passes in Ecfg as [Hcov _].
  destruct (fgt _ (max_coverage a)) eqn:Egt.
  - intros Hsel.
    destruct (select_by_coverage_below argsort n w m _ sel Hc Hwf Hcont Hn Hsel)
      as [H|[q [Hq Hlt]]]; [now left | right].
    exists q. split; [exact Hq | now apply Qlt_le_weak].
  - destruct (flt _ (min_coverage a)) eqn:Elt.
    + intros Hsel.
      destruct (select_by_coverage_below argsort n w m _ sel Hc Hwf Hcont Hn Hsel)
        as [H|[q [Hq Hlt]]]; [now left | right].
      exists q. split; [exact Hq|].
      apply Qlt_le_weak. eapply Qlt_trans; eassumption.
    + intros H. injection H as <-. right.
      assert (Ha : area m <> 0).
      { destruct Hcont as [_ Hin]. unfold wf_mask in Hwf. unfold area.
        rewrite <- Hwf. specialize (Hin 0 Hn).
        destruct (labels m); [contradiction | discriminate]. }
      rewrite (covered_fraction_defined m _ Ha) in *.
      eexists. split; [reflexivity|]. simpl in Egt. now apply Qltb_ge.
Qed.

Lemma selection_within_max_coverage_witness :
  length [2] <= 1 \/
  exists q, covered_fraction three_cells [2] = Some q /\
            (q <= max_coverage (capped_at_half 0 2))%Q.
Proof.
  apply (selection_within_max_coverage argsort_stable 0 [2#1; 1#1; 3#1]%Q
           three_cells (capped_at_half 0 2) [2] argsort_stable_contract);
    [reflexivity | apply three_cells_contiguous | simpl; lia | reflexivity].
Defined.

(** X6.  The fallback for [min_coverage] does not reach the minimum: when the
    candidate of a call on contiguous ids covers less than [min_coverage], the
    call returns a single id or a selection that still covers strictly less
    than [min_coverage]. *)
Theorem min_coverage_fallback_stays_below argsort (n : nat) (w : list Q)
  (m : mask) (a : args) (maxn : Z) :
  argsort_contract argsort -> wf_mask m -> contiguous_ids w m ->
  1 <= length w ->
  effective_max m a = inr maxn -> check_config a maxn = None ->
  let sel0 := candidate argsort w
    (clamp_count (requested_count argsort w m a maxn) (min_num_of_segments a) maxn) in
  fgt (covered_fraction m sel0) (max_coverage a) = false ->
  flt (covered_fraction m sel0) (min_coverage a) = true ->
  exists sel,
    select_segments argsort (S (S n)) w m a = Some (inr sel) /\
    (length sel <= 1 \/
     exists q, covered_fraction m sel = Some q /\ (q < min_coverage a)%Q).
Proof.
  intros Hc Hwf Hcont Hn Emax Ecfg sel0 Hgt Hlt.
  destruct (np_max_contiguous w m Hcont Hn) as [x [Hx _]].
  assert (Hcall : select_segments argsort (S (S n)) w m a =
                  select_segments argsort (S n) w m (by_coverage (min_coverage a))).
  { cbn [select_segments]. rewrite Emax, Ecfg. fold sel0. now rewrite Hgt, Hlt. }
  pose proof (select_segments_by_coverage argsort n w m (min_coverage a) x Hwf Hx)
    as Hres.
  cbv zeta in Hres. eexists. split; [rewrite Hcall; exact Hres|].
  apply (select_by_coverage_below argsort n w m (min_coverage a) _ Hc Hwf Hcont Hn Hres).
Qed.

Lemma min_coverage_fallback_stays_below_witness :
  exists sel,
    select_segments argsort_stable 2 [2#1; 1#1; 3#1]%Q three_cells
      {| coverage := None; num_of_segments := Some 0%Z;
         min_coverage := (1#2)%Q; max_coverage := 1%Q;
         min_num_of_segments := 0%Z; max_num_of_segments := None |}
    = Some (inr sel) /\
    (length sel <= 1 \/
     exists q, covered_fraction three_cells sel = Some q /\ (q < 1#2)%Q).
Proof.
  apply (min_coverage_fallback_stays_below argsort_stable 0 [2#1; 1#1; 3#1]%Q
           three_cells
           {| coverage := None; num_of_segments := Some 0%Z;
              min_coverage := (1#2)%Q; max_coverage := 1%Q;
              min_num_of_segments := 0%Z; max_num_of_segments := None |} 3%Z
           argsort_stable_contract);
    try reflexivity; [apply three_cells_contiguous | simpl; lia].
Defined.

(** * Further properties of the opacity shaping *)

Lemma py_index_defined {A : Type} (l : list A) (i : Z) :
  (exists v, py_index l i = inr v) <-> indexes (length l) i.
Proof.
  unfold py_index, indexes.
  set (j := if (i <? 0)%Z then (Z.of_nat (length l) + i)%Z else i).
  assert (Hj : (0 <= j < Z.of_nat (length l))%Z <->
               (- Z.of_nat (length l) <= i < Z.of_nat (length l))%Z)
    by (unfold j; destruct (Z.ltb_spec i 0); lia).
  rewrite <- Hj. destruct (Z.ltb_spec j 0) as [Hneg|Hpos].
  - split; [intros [v H]; discriminate | lia].
  - destruct (nth_error l (Z.to_nat j)) as [v|] eqn:E.
    + split; [intros _ | eauto].
      assert (H : nth_error l (Z.to_nat j) <> None) by congruence.
      apply nth_error_Some in H. lia.
    + apply nth_error_None in E. split; [intros [v H]; discriminate | lia].
Qed.

(** The loop completes exactly when every id indexes [new_opacity] and, if
    there is an id at all, the mask has the shape of the overlay. *)
Lemma color_loop_returns_iff (m : mask) (new_opacity : list Q) (segs : list Z) :
  forall (s : store) (o1 : overlay),
  (exists s2, color_loop (s ++ [o1]) (length s) m new_opacity segs = inr s2) <->
  Forall (indexes (length new_opacity)) segs /\
  (segs = [] \/ (oshape0 o1 = shape0 m /\ oshape1 o1 = shape1 m)).
Proof.
  intros s o1. split.
  - revert o1. induction segs as [|segment_id rest IH]; intros o1; simpl.
    + intros _. split; [constructor | now left].
    + destruct (py_index new_opacity segment_id) as [e|v] eqn:Ev;
        [intros [s2 H]; discriminate|].
      unfold setitem_alpha. rewrite nth_error_last.
      destruct (Nat.eqb_spec (oshape0 o1) (shape0 m)) as [H0|];
        [|intros [s2 H]; discriminate].
      destruct (Nat.eqb_spec (oshape1 o1) (shape1 m)) as [H1|];
        [|intros [s2 H]; discriminate].
      simpl. rewrite update_last. intros Hrest.
      apply IH in Hrest as [Hids _]. split; [|right; now split].
      constructor; [|exact Hids]. apply py_index_defined. eauto.
  - intros [Hids [->|[H0 H1]]]; [simpl; eauto|].
    now apply color_loop_completes.
Qed.

Lemma reference_defined (rescaled_weights : list Q) (rel : pyvalue) :
  (exists r, reference_of rescaled_weights rel = inr r) <->
  (is_max rel = true /\ rescaled_weights <> []) \/
  (is_max rel = false /\ is_float rel = true).
Proof.
  unfold reference_of. destruct (is_max rel) eqn:Emax.
  - unfold np_amax. destruct rescaled_weights as [|x xs].
    + split; [intros [r H]; discriminate|].
      intros [[_ H]|[H _]]; [now elim H | discriminate].
    + split; [intros _; left; split; [reflexivity | discriminate] | eauto].
  - destruct rel; simpl;
      (split; [intros [r H]; try discriminate; right; now split
              | intros [[H _]|[_ H]]; try discriminate; eauto]).
Qed.

(** X7.  [scale_opacity] returns, rather than raises, exactly when
    [relative_to] is ["max"] and there is at least one weight, or is a float;
    every id of [segments_to_color] indexes the weights (from either end);
    and the mask has the shape of the overlay or there is no id to colour. *)
Theorem scale_opacity_returns_iff norm (s : store) (ov : nat) (o : overlay)
  (w : list Q) (m : mask) (segs : list Z) (rel : pyvalue) :
  nth_error s ov = Some o ->
  ((exists s' r, scale_opacity norm s ov w m segs rel = (s', inr r)) <->
   ((is_max rel = true /\ w <> []) \/ (is_max rel = false /\ is_float rel = true)) /\
   Forall (indexes (length w)) segs /\
   (segs = [] \/ (oshape0 o = shape0 m /\ oshape1 o = shape1 m))).
Proof.
  intros Ho.
  assert (Hw : rescale norm w <> [] <-> w <> []).
  { unfold rescale. destruct w; simpl; split; intros H; congruence. }
  rewrite <- Hw, <- reference_defined.
  unfold scale_opacity, np_copy. rewrite Ho.
  destruct (reference_of (rescale norm w) rel) as [e|reference].
  - split; [intros [s' [r H]]; discriminate|].
    intros [[r H] _]. discriminate.
  - rewrite <- (opacity_length norm w reference).
    rewrite <- (color_loop_returns_iff m _ segs s o).
    destruct (color_loop (s ++ [o]) (length s) m _ segs) as [e|s2].
    + split; [intros [s' [r H]]; discriminate|].
      intros [_ [s2 H]]. discriminate.
    + split; [intros _; split; eauto | eauto].
Qed.

Lemma scale_opacity_returns_iff_witness :
  (exists s' r, scale_opacity l2_norm [two_pixels] 0 [3#1; 4#1]%Q two_cells
                  [1%Z; (-2)%Z] (PyStr "max") = (s', inr r)) <->
  ((is_max (PyStr "max") = true /\ [3#1; 4#1]%Q <> []) \/
   (is_max (PyStr "max") = false /\ is_float (PyStr "max") = true)) /\
  Forall (indexes (length [3#1; 4#1]%Q)) [1%Z; (-2)%Z] /\
  ([1%Z; (-2)%Z] = [] \/
   (oshape0 two_pixels = shape0 two_cells /\ oshape1 two_pixels = shape1 two_cells)).
Proof.
  exact (scale_opacity_returns_iff l2_norm [two_pixels] 0 two_pixels [3#1; 4#1]%Q
           two_cells [1%Z; (-2)%Z] (PyStr "max") eq_refl).
Defined.

(** The id 2 does not index two weights: the call raises [IndexError], after
    it has written the alpha of segment 1 into the copy. *)
Example scale_opacity_index_error :
  snd (scale_opacity l2_norm [two_pixels] 0 [3#1; 4#1]%Q two_cells
         [1%Z; 2%Z] (PyStr "max")) = inl IndexOutOfBounds.
Proof. reflexivity. Qed.

Lemma float_to_int_eight_bit (q : Q) :
  (0 <= q)%Q -> (q <= 255)%Q -> (0 <= float_to_int q <= 255)%Z.
Proof.
  unfold Qle, float_to_int. simpl. intros H0 H1.
  rewrite Z.quot_div_nonneg by lia. split.
  - apply Z.div_pos; lia.
  - apply Z.div_le_upper_bound; lia.
Qed.

Lemma existsb_same_elements (f : Z -> bool) (l l' : list Z) :
  (forall z, In z l <-> In z l') -> existsb f l = existsb f l'.
Proof.
  intros H. apply eq_true_iff_eq. rewrite !existsb_exists.
  split; intros [x [Hx Hf]]; exists x; (split; [now apply H | exact Hf]).
Qed.

Lemma pixel_eq (p q : pixel) :
  ch0 p = ch0 q -> ch1 p = ch1 q -> ch2 p = ch2 q -> ch3 p = ch3 q -> p = q.
Proof.
  destruct p, q. simpl. intros -> -> -> ->. reflexivity.
Qed.

(** X9.  [scale_opacity] reads [segments_to_color] as a set: two calls whose
    id lists hold the same ids, in whatever order and however often, and that
    both return, return equal stores and references. *)
Theorem scale_opacity_ignores_order norm (s : store) (ov : nat) (w : list Q)
  (m : mask) (segs segs' : list Z) (rel : pyvalue)
  (s1 s2 : store) (r1 r2 : nat) :
  (forall z, In z segs <-> In z segs') ->
  scale_opacity norm s ov w m segs rel = (s1, inr r1) ->
  scale_opacity norm s ov w m segs' rel = (s2, inr r2) ->
  s1 = s2 /\ r1 = r2.
Proof.
  intros Hsame H1 H2.
  destruct (scale_opacity_result_frame _ _ _ _ _ _ _ _ _ H1)
    as [o [o1 [ref1 [Ho [Href1 [-> [-> [Ha0 [Ha1 [Hlen1 Hf1]]]]]]]]]].
  destruct (scale_opacity_result_frame _ _ _ _ _ _ _ _ _ H2)
    as [o' [o2 [ref2 [Ho' [Href2 [-> [-> [Hb0 [Hb1 [Hlen2 Hf2]]]]]]]]]].
  rewrite Ho in Ho'. injection Ho' as <-.
  rewrite Href1 in Href2. injection Href2 as <-.
  split; [|reflexivity]. f_equal. f_equal.
  assert (Hpix : pixels o1 = pixels o2).
  { apply nth_error_ext. intros i.
    destruct (nth_error (pixels o) i) as [p|] eqn:Hp.
    - destruct (nth_error (pixels o1) i) as [p1|] eqn:Hp1;
        [|apply nth_error_None in Hp1;
          assert (H : nth_error (pixels o) i <> None) by congruence;
          apply nth_error_Some in H; lia].
      destruct (nth_error (pixels o2) i) as [p2|] eqn:Hp2;
        [|apply nth_error_None in Hp2;
          assert (H : nth_error (pixels o) i <> None) by congruence;
          apply nth_error_Some in H; lia].
      f_equal.
      destruct (Hf1 i p p1 Hp Hp1) as [A0 [A1 [A2 A3]]].
      destruct (Hf2 i p p2 Hp Hp2) as [B0 [B1 [B2 B3]]].
      apply pixel_eq; try congruence.
      unfold alpha_after in A3, B3.
      destruct (nth_error (labels m) i) as [l|]; [|congruence].
      rewrite <- (existsb_same_elements (Z.eqb (Z.of_nat l)) segs segs' Hsame) in B3.
      destruct (existsb (Z.eqb (Z.of_nat l)) segs); [|congruence].
      destruct A3 as [v [Hv ->]]. destruct B3 as [v' [Hv' ->]].
      rewrite Hv in Hv'. now injection Hv' as <-.
    - apply nth_error_None in Hp.
      assert (N1 : nth_error (pixels o1) i = None) by (apply nth_error_None; lia).
      assert (N2 : nth_error (pixels o2) i = None) by (apply nth_error_None; lia).
      congruence. }
  destruct o1, o2. simpl in *. congruence.
Qed.

Lemma scale_opacity_ignores_order_witness :
  fst (scale_opacity l2_norm [two_pixels] 0 [3#1; 4#1]%Q two_cells [0%Z; 1%Z]
         (PyStr "max"))
  = fst (scale_opacity l2_norm [two_pixels] 0 [3#1; 4#1]%Q two_cells
           [1%Z; 0%Z; 1%Z] (PyStr "max")) /\
  1 = 1.
Proof.
  apply (scale_opacity_ignores_order l2_norm [two_pixels] 0 [3#1; 4#1]%Q
           two_cells [0%Z; 1%Z] [1%Z; 0%Z; 1%Z] (PyStr "max"));
    [intros z; simpl; tauto | reflexivity | reflexivity].
Defined.

(** * Colours and rendering *)

Lemma dict_get_none {A : Type} (d : list (string * A)) (k : string) :
  dict_get d k = None <-> ~ In k (map fst d).
Proof.
  induction d as [|[k' v] d IH]; simpl.
  - tauto.
  - destruct (String.eqb_spec k k') as [->|Hne].
    + split; [discriminate | intros H; elim H; now left].
    + rewrite IH. split; [intros H [Heq|Hin]; [congruence | contradiction] | tauto].
Qed.

Lemma alpha_eight_bit (opacity : Q) :
  (0 <= opacity)%Q -> (opacity <= 1)%Q ->
  (0 <= float_to_int (255 * opacity) <= 255)%Z.
Proof.
  intros H0 H1. apply float_to_int_eight_bit.
  - apply Qmult_le_0_compat; [discriminate | exact H0].
  - setoid_replace 255%Q with (255 * 1)%Q at 2 by reflexivity.
    apply Qmult_le_l; [reflexivity | exact H1].
Qed.

(** A palette name resolves to its three channel values, each of eight
    bits, followed by the alpha. *)
Lemma get_color_named (name : string) (opacity : Q) :
  In name (map fst COLORS) ->
  exists r g b,
    dict_get COLORS name = Some [r; g; b] /\
    _get_color (Named name) opacity = inr [r; g; b; float_to_int (255 * opacity)] /\
    (0 <= r <= 255)%Z /\ (0 <= g <= 255)%Z /\ (0 <= b <= 255)%Z.
Proof.
  simpl. intros [<-|[<-|[<-|[<-|[<-|[<-|[]]]]]]];
    do 3 eexists; (split; [reflexivity|]); (split; [reflexivity|]); lia.
Qed.

(** X10.  [_get_color] raises for a name exactly when the name is not one of
    the six keys of [COLORS], and the error carries the name and the six
    keys; for a key and an opacity between 0 and 1 it returns four values of
    eight bits, the alpha [int(255 * opacity)] last. *)
Theorem get_color_palette (name : string) (opacity : Q) :
  ((exists e, _get_color (Named name) opacity = inl e) <->
   ~ In name ["green"; "blue"; "red"; "white"; "black"; "violet"]%string) /\
  (forall e, _get_color (Named name) opacity = inl e ->
     e = UnknownColor name
           ["green"; "blue"; "red"; "white"; "black"; "violet"]%string) /\
  (In name ["green"; "blue"; "red"; "white"; "black"; "violet"]%string ->
   (0 <= opacity)%Q -> (opacity <= 1)%Q ->
   exists r g b,
     _get_color (Named name) opacity = inr [r; g; b; float_to_int (255 * opacity)] /\
     (0 <= r <= 255)%Z /\ (0 <= g <= 255)%Z /\ (0 <= b <= 255)%Z /\
     (0 <= float_to_int (255 * opacity) <= 255)%Z).
Proof.
  change ["green"; "blue"; "red"; "white"; "black"; "violet"]%string
    with (map fst COLORS).
  split; [|split].
  - rewrite <- dict_get_none. unfold _get_color.
    destruct (dict_get COLORS name); split; try discriminate; eauto.
    intros [e H]. discriminate.
  - unfold _get_color. destruct (dict_get COLORS name); [discriminate|].
    intros e H. now injection H as <-.
  - intros Hin H0 H1.
    destruct (get_color_named name opacity Hin) as [r [g [b [_ [Hc Hr]]]]].
    exists r, g, b. split; [exact Hc|].
    repeat (split; [tauto|]). now apply alpha_eight_bit.
Qed.

Example get_color_examples :
  _get_color (Named "green") 1 = inr [0; 255; 0; 255]%Z /\
  _get_color (Named "red") 0 = inr [173; 38; 38; 0]%Z /\
  _get_color (Named "violet") (1#2) = inr [215; 102; 255; 127]%Z /\
  _get_color (Rgb [1; 2; 3]%Z) (1#2) = inr [1; 2; 3; 127]%Z.
Proof. repeat split. Qed.

(** X11.  [generate_overlay] returns an overlay exactly for a name of the
    palette and for a tuple of three values or of none; an unknown name
    and a tuple of any other length raise.  (A tuple of no value leaves the
    alpha alone, which NumPy broadcasts over the four channels.) *)
Theorem generate_overlay_returns_iff (m : mask) (segs : list Z) (c : color)
  (opacity : Q) :
  (exists ov, generate_overlay m segs c opacity = inr ov) <->
  match c with
  | Named name => In name ["green"; "blue"; "red"; "white"; "black"; "violet"]%string
  | Rgb channels => length channels = 3 \/ length channels = 0
  end.
Proof.
  destruct c as [name|channels].
  - change ["green"; "blue"; "red"; "white"; "black"; "violet"]%string
      with (map fst COLORS).
    split.
    + intros [ov H]. destruct (dict_get COLORS name) eqn:E.
      * destruct (in_dec string_dec name (map fst COLORS)) as [Hin|Hout];
          [exact Hin|].
        apply dict_get_none in Hout. congruence.
      * unfold generate_overlay, _get_color in H. rewrite E in H. discriminate.
    + intros Hin.
      destruct (get_color_named name opacity Hin) as [r [g [b [_ [Hc _]]]]].
      unfold generate_overlay. rewrite Hc. eauto.
  - unfold generate_overlay, _get_color.
    destruct channels as [|c0 [|c1 [|c2 [|c3 [|c4 rest]]]]]; simpl;
      (split; [intros [ov H]; try discriminate; auto
              | intros [H|H]; try discriminate; eauto]).
Qed.

Lemma isin_cells_nth (m : mask) (segs : list Z) (i : nat) :
  nth_error (isin_cells m segs) i =
  option_map (fun l => existsb (Z.eqb (Z.of_nat l)) segs) (nth_error (labels m) i).
Proof. unfold isin_cells. apply nth_error_map. Qed.

(** The cells of a generated overlay, for a colour vector of four values. *)
Lemma generate_overlay_cells (m : mask) (segs : list Z) (c : color) (opacity : Q)
  (c0 c1 c2 c3 : Z) :
  _get_color c opacity = inr [c0; c1; c2; c3] ->
  exists ov,
    generate_overlay m segs c opacity = inr ov /\
    oshape0 ov = shape0 m /\ oshape1 ov = shape1 m /\
    length (pixels ov) = length (labels m) /\
    forall i l p,
      nth_error (labels m) i = Some l -> nth_error (pixels ov) i = Some p ->
      p = if existsb (Z.eqb (Z.of_nat l)) segs
          then {| ch0 := c0; ch1 := c1; ch2 := c2; ch3 := c3 |}
          else transparent.
Proof.
  intros Hc. unfold generate_overlay. rewrite Hc. eexists.
  split; [reflexivity|]. simpl.
  split; [reflexivity|]. split; [reflexivity|].
  split; [unfold isin_cells; now rewrite !length_map|].
  intros i l p Hl Hp. rewrite nth_error_map, isin_cells_nth, Hl in Hp.
  simpl in Hp. injection Hp as <-.
  destruct (existsb (Z.eqb (Z.of_nat l)) segs); reflexivity.
Qed.

(** X12.  For a name of the palette and an opacity between 0 and 1,
    [generate_overlay] returns an overlay of the shape of the mask with one
    cell per cell of the mask, every channel a value of eight bits: a cell
    whose label is not in [segments_to_color] is fully transparent, and a
    cell whose label is holds the colour of the name with the alpha
    [int(255 * opacity)]. *)
Theorem generate_overlay_named (m : mask) (segs : list Z) (name : string)
  (opacity : Q) :
  In name ["green"; "blue"; "red"; "white"; "black"; "violet"]%string ->
  (0 <= opacity)%Q -> (opacity <= 1)%Q ->
  exists ov r g b,
    generate_overlay m segs (Named name) opacity = inr ov /\
    dict_get COLORS name = Some [r; g; b] /\
    oshape0 ov = shape0 m /\ oshape1 ov = shape1 m /\
    length (pixels ov) = length (labels m) /\
    forall i l p,
      nth_error (labels m) i = Some l -> nth_error (pixels ov) i = Some p ->
      eight_bit p /\
      (existsb (Z.eqb (Z.of_nat l)) segs = false -> p = transparent) /\
      (existsb (Z.eqb (Z.of_nat l)) segs = true ->
       p = {| ch0 := r; ch1 := g; ch2 := b;
              ch3 := float_to_int (255 * opacity) |}).
Proof.
  intros Hin H0 H1.
  destruct (get_color_named name opacity Hin) as [r [g [b [Hd [Hc [Hr [Hg Hb]]]]]]].
  destruct (generate_overlay_cells m segs (Named name) opacity _ _ _ _ Hc)
    as [ov [Hov [Hs0 [Hs1 [Hlen Hcells]]]]].
  exists ov, r, g, b. do 5 (split; [assumption|]).
  intros i l p Hl Hp. rewrite (Hcells i l p Hl Hp).
  pose proof (alpha_eight_bit opacity H0 H1) as Ha.
  destruct (existsb (Z.eqb (Z.of_nat l)) segs).
  - split; [unfold eight_bit; simpl; tauto|]. split; [discriminate | reflexivity].
  - split; [unfold eight_bit; simpl; lia|]. split; [reflexivity | discriminate].
Qed.

Lemma generate_overlay_named_witness :
  exists ov r g b,
    generate_overlay two_cells [1%Z] (Named "blue") (1#2) = inr ov /\
    dict_get COLORS "blue" = Some [r; g; b] /\
    oshape0 ov = shape0 two_cells /\ oshape1 ov = shape1 two_cells /\
    length (pixels ov) = length (labels two_cells) /\
    forall i l p,
      nth_error (labels two_cells) i = Some l -> nth_error (pixels ov) i = Some p ->
      eight_bit p /\
      (existsb (Z.eqb (Z.of_nat l)) [1%Z] = false -> p = transparent) /\
      (existsb (Z.eqb (Z.of_nat l)) [1%Z] = true ->
       p = {| ch0 := r; ch1 := g; ch2 := b;
              ch3 := float_to_int (255 * (1#2)) |}).
Proof.
  apply (generate_overlay_named two_cells [1%Z] "blue" (1#2)%Q);
    [simpl; tauto | discriminate | discriminate].
Defined.

(** X13.  [generate_overlay] reads [segments_to_color] as a set: id lists
    that hold the same ids, in whatever order and however often, give the
    same result. *)
Theorem generate_overlay_ignores_order (m : mask) (segs segs' : list Z)
  (c : color) (opacity : Q) :
  (forall z, In z segs <-> In z segs') ->
  generate_overlay m segs c opacity = generate_overlay m segs' c opacity.
Proof.
  intros Hsame.
  assert (Hcells : isin_cells m segs = isin_cells m segs').
  { unfold isin_cells. apply map_ext. intros l.
    now apply existsb_same_elements. }
  unfold generate_overlay. now rewrite Hcells.
Qed.

Lemma generate_overlay_ignores_order_witness :
  generate_overlay three_cells [0%Z; 2%Z] (Named "red") 1
  = generate_overlay three_cells [2%Z; 0%Z; 2%Z] (Named "red") 1.
Proof.
  apply (generate_overlay_ignores_order three_cells [0%Z; 2%Z] [2%Z; 0%Z; 2%Z]).
  intros z. simpl. tauto.
Defined.

Lemma existsb_of_nat (sel : list nat) (l : nat) :
  existsb (Z.eqb (Z.of_nat l)) (map Z.of_nat sel) = isin sel l.
Proof.
  unfold isin. induction sel as [|x sel IH]; simpl; [reflexivity|].
  rewrite IH. f_equal.
  destruct (Nat.eqb_spec l x) as [->|Hne]; [apply Z.eqb_refl|].
  apply Z.eqb_neq. lia.
Qed.

(** X14.  The overlay generated from a selection colours exactly the area
    that [select_segments] measures: with an alpha that is not zero, the
    number of cells whose alpha is not zero is
    [np.isin(segment_mask, selection).sum()]. *)
Theorem overlay_colours_measured_area (m : mask) (sel : list nat) (c : color)
  (opacity : Q) (c0 c1 c2 c3 : Z) (ov : overlay) :
  _get_color c opacity = inr [c0; c1; c2; c3] -> c3 <> 0%Z ->
  generate_overlay m (map Z.of_nat sel) c opacity = inr ov ->
  length (filter (fun p => negb (ch3 p =? 0)%Z) (pixels ov)) = isin_sum m sel.
Proof.
  intros Hc Hc3. unfold generate_overlay. rewrite Hc.
  intros H. injection H as <-. simpl.
  unfold isin_cells, isin_sum. rewrite map_map.
  induction (labels m) as [|l ls IH]; simpl; [reflexivity|].
  rewrite existsb_of_nat. destruct (isin sel l); simpl.
  - destruct (Z.eqb_spec c3 0); [contradiction|]. simpl. now rewrite IH.
  - exact IH.
Qed.

Lemma overlay_colours_measured_area_witness :
  length (filter (fun p => negb (ch3 p =? 0)%Z)
            [transparent; transparent;
             {| ch0 := 173; ch1 := 38; ch2 := 38; ch3 := 255 |}])
  = isin_sum three_cells [2].
Proof.
  apply (overlay_colours_measured_area three_cells [2] (Named "red") 1
           173 38 38 255
           {| oshape0 := 1; oshape1 := 3;
              pixels := [transparent; transparent;
                         {| ch0 := 173; ch1 := 38; ch2 := 38; ch3 := 255 |}] |});
    [reflexivity | discriminate | reflexivity].
Defined.

(** * From the selection to the shaped overlay *)

Lemma selection_ids_index argsort (fuel : nat) (w : list Q) (m : mask)
  (a : args) (sel : list nat) :
  argsort_contract argsort ->
  select_segments argsort fuel w m a = Some (inr sel) ->
  Forall (indexes (length w)) (map Z.of_nat sel).
Proof.
  intros Hc Hsel.
  destruct (select_segments_prefix argsort fuel w m a sel Hsel) as [n ->].
  destruct (Hc (map Qopp w)) as [Hperm _]. rewrite length_map in Hperm.
  apply Forall_forall. intros z Hz. apply in_map_iff in Hz as [i [<- Hi]].
  assert (Hin : In i (ordered_segments argsort w)).
  { rewrite <- (firstn_skipn n (ordered_segments argsort w)).
    apply in_or_app. now left. }
  apply (Permutation_in _ Hperm), in_seq in Hin. unfold indexes. lia.
Qed.

Lemma py_index_map_nat {A B : Type} (f : A -> B) (l : list A) (i : nat) (v : B) :
  py_index (map f l) (Z.of_nat i) = inr v ->
  exists x, nth_error l i = Some x /\ v = f x.
Proof.
  unfold py_index. destruct (Z.ltb_spec (Z.of_nat i) 0) as [|_]; [lia|].
  destruct (Z.ltb_spec (Z.of_nat i) 0) as [|_]; [lia|].
  rewrite Nat2Z.id, nth_error_map.
  destruct (nth_error l i) as [x|]; simpl; [|discriminate].
  intros H. injection H as <-. eauto.
Qed.

(** X15.  Selecting, rendering and shaping compose without an exception of
    shape or index: for a selection that [select_segments] returned, a colour
    of four values and a [relative_to] that is a float, or ["max"] with at
    least one weight, [generate_overlay] returns an overlay and
    [scale_opacity] on it returns a second object of the shape of the mask,
    in which a cell outside the selection is fully transparent and a cell of
    a selected segment keeps the three colour channels.  (The alpha of a
    selected cell is whatever line 207 stores; the statement leaves it
    open.) *)
Theorem select_render_shape argsort norm (fuel : nat) (w : list Q) (m : mask)
  (a : args) (sel : list nat) (c : color) (share : Q) (c0 c1 c2 c3 : Z)
  (rel : pyvalue) :
  argsort_contract argsort ->
  select_segments argsort fuel w m a = Some (inr sel) ->
  _get_color c share = inr [c0; c1; c2; c3] ->
  (is_max rel = true /\ w <> []) \/ (is_max rel = false /\ is_float rel = true) ->
  exists ov o',
    generate_overlay m (map Z.of_nat sel) c share = inr ov /\
    scale_opacity norm [ov] 0 w m (map Z.of_nat sel) rel = ([ov; o'], inr 1) /\
    oshape0 o' = shape0 m /\ oshape1 o' = shape1 m /\
    length (pixels o') = length (labels m) /\
    forall i l p',
      nth_error (labels m) i = Some l -> nth_error (pixels o') i = Some p' ->
      (isin sel l = false -> p' = transparent) /\
      (isin sel l = true -> ch0 p' = c0 /\ ch1 p' = c1 /\ ch2 p' = c2).
Proof.
  intros Hc Hsel Hcol Hrel.
  assert (Href : exists reference, reference_of (rescale norm w) rel = inr reference).
  { apply reference_defined. destruct Hrel as [[Hmax Hw]|Hfloat]; [left|now right].
    split; [exact Hmax|]. unfold rescale. intros Hnil.
    apply map_eq_nil in Hnil. contradiction. }
  destruct Href as [reference Href].
  destruct (generate_overlay_cells m (map Z.of_nat sel) c share _ _ _ _ Hcol)
    as [ov [Hov [Hs0 [Hs1 [Hlen Hcells]]]]].
  pose proof (selection_ids_index argsort fuel w m a sel Hc Hsel) as Hids.
  rewrite <- (opacity_length norm w reference) in Hids.
  destruct (color_loop_completes m (opacity (rescale norm w) reference)
              (map Z.of_nat sel) Hids [ov] ov Hs0 Hs1) as [s2 Hloop].
  assert (Hcall : scale_opacity norm [ov] 0 w m (map Z.of_nat sel) rel
                  = (s2, inr 1)).
  { unfold scale_opacity, np_copy. rewrite Href. simpl nth_error.
    cbv iota beta. now rewrite Hloop. }
  destruct (scale_opacity_result_frame _ _ _ _ _ _ _ _ _ Hcall)
    as [o0 [o' [ref0 [Ho0 [Href0 [_ [Hs2 [Hp0 [Hp1 [Hplen Hframe]]]]]]]]]].
  simpl in Ho0. injection Ho0 as <-.
  rewrite Href in Href0. injection Href0 as <-.
  exists ov, o'. split; [exact Hov|]. split; [now rewrite Hcall, Hs2|].
  split; [congruence|]. split; [congruence|]. split; [congruence|].
  intros i l p' Hl Hp'.
  destruct (nth_error (pixels ov) i) as [p|] eqn:Hp;
    [|apply nth_error_None in Hp;
      assert (H : nth_error (pixels o') i <> None) by congruence;
      apply nth_error_Some in H; lia].
  destruct (Hframe i p p' Hp Hp') as [A0 [A1 [A2 A3]]].
  pose proof (Hcells i l p Hl Hp) as Hpix.
  unfold alpha_after in A3. rewrite Hl, existsb_of_nat in A3.
  rewrite existsb_of_nat in Hpix.
  destruct (isin sel l); subst p; simpl in *.
  - split; [discriminate|]. intros _. now rewrite A0, A1, A2.
  - split; [|discriminate]. intros _. now apply pixel_eq.
Qed.

Lemma select_render_shape_witness :
  exists ov o',
    generate_overlay three_cells (map Z.of_nat [2]) (Named "red") 1 = inr ov /\
    scale_opacity l2_norm [ov] 0 [2#1; 1#1; 3#1]%Q three_cells (map Z.of_nat [2])
      (PyFloat (1#2)) = ([ov; o'], inr 1) /\
    oshape0 o' = shape0 three_cells /\ oshape1 o' = shape1 three_cells /\
    length (pixels o') = length (labels three_cells) /\
    forall i l p',
      nth_error (labels three_cells) i = Some l -> nth_error (pixels o') i = Some p' ->
      (isin [2] l = false -> p' = transparent) /\
      (isin [2] l = true -> ch0 p' = 173%Z /\ ch1 p' = 38%Z /\ ch2 p' = 38%Z).
Proof.
  apply (select_render_shape argsort_stable l2_norm 2 [2#1; 1#1; 3#1]%Q
           three_cells (capped_at_half 0 2) [2] (Named "red") 1 173 38 38 255
           (PyFloat (1#2)) argsort_stable_contract);
    [reflexivity | reflexivity | right; split; reflexivity].
Defined.
